(** * SENG265/A3/list.c: a singly-linked list of song records

    A shallow embedding of [list.c] over an explicit memory of nodes and
    songs, followed by the properties of the ordered insertion, of the
    front/end operations and of the traversal. *)

From Stdlib Require Import ZArith String Ascii Lia.
From stdpp Require Import base option list gmap sorting.

Local Open Scope Z_scope.

(** ** Data model *)

(** A pointer is a location or [NULL]. *)
Definition loc := positive.
Definition ptr := option loc.
Definition NULL : ptr := None.

(** Modelled from the spec: [list.h] is not part of the sources; the spec
    gives [Song] an [artist] text, a [song] title text and a numeric
    [comparator], and a node a [song] reference and a [next] link. *)
Module Song.
Record t := mk { artist : string; song : string; comparator : Z }.
End Song.

Module Node.
Record t := mk { song : ptr; next : ptr }.
End Node.

Abbreviation node_t := Node.t.

(** The memory: the songs (owned by the caller) and the allocated nodes. *)
Record mem := Mem { songs : gmap loc Song.t; nodes : gmap loc Node.t }.

(** ** Results and the state-and-error monad

    [Fault] is a run that does not return: a dereference of [NULL] or of an
    unallocated location, or a failed [assert].  [Timeout] is the model
    running out of loop fuel. *)
Inductive res (A : Type) : Type :=
| Ok (a : A)
| Fault
| Timeout.
Arguments Ok {A} a.
Arguments Fault {A}.
Arguments Timeout {A}.

Definition M (St A : Type) : Type := St -> res (A * St).

Definition ret {St A} (a : A) : M St A := fun s => Ok (a, s).

Definition bind {St A B} (c : M St A) (k : A -> M St B) : M St B :=
  fun s => match c s with
           | Ok (a, s') => k a s'
           | Fault => Fault
           | Timeout => Timeout
           end.

Definition fault {St A} : M St A := fun _ => Fault.
Definition timeout {St A} : M St A := fun _ => Timeout.

Declare Scope m_scope.
Delimit Scope m_scope with m.
Notation "'let*' x := c 'in' k" := (bind c (fun x => k))
  (at level 10, x pattern, c at level 100, k at level 200) : m_scope.
Notation "c ;;; k" := (bind c (fun _ => k))
  (at level 100, k at level 200, right associativity) : m_scope.
Local Open Scope m_scope.

(** [while (cond) body], with the loop variables in [t]. *)
Fixpoint while {St T} (fuel : nat) (cond : T -> M St bool) (body : T -> M St T)
    (t : T) : M St T :=
  match fuel with
  | O => timeout
  | S fuel' =>
      let* b := cond t in
      if b then let* t' := body t in while fuel' cond body t' else ret t
  end.

(** ** Memory accesses *)

Definition load_node (p : ptr) : M mem node_t :=
  fun m => match p with
           | None => Fault
           | Some l => match nodes m !! l with
                       | Some n => Ok (n, m)
                       | None => Fault
                       end
           end.

Definition load_song (p : ptr) : M mem Song.t :=
  fun m => match p with
           | None => Fault
           | Some l => match songs m !! l with
                       | Some s => Ok (s, m)
                       | None => Fault
                       end
           end.

(** [p->next = v] *)
Definition store_next (p : ptr) (v : ptr) : M mem unit :=
  fun m => match p with
           | None => Fault
           | Some l => match nodes m !! l with
                       | Some n =>
                           Ok (tt, Mem (songs m)
                                       (<[l := Node.mk (Node.song n) v]> (nodes m)))
                       | None => Fault
                       end
           end.

(** [p->next] *)
Definition get_next (p : ptr) : M mem ptr :=
  let* n := load_node p in ret (Node.next n).

(** [p->song->comparator], [p->song->song], [p->song->artist] *)
Definition get_comparator (p : ptr) : M mem Z :=
  let* n := load_node p in let* s := load_song (Node.song n) in ret (Song.comparator s).

Definition get_title (p : ptr) : M mem string :=
  let* n := load_node p in let* s := load_song (Node.song n) in ret (Song.song s).

Definition get_artist (p : ptr) : M mem string :=
  let* n := load_node p in let* s := load_song (Node.song n) in ret (Song.artist s).

(** The C library's [strcmp]: the difference of the first two bytes (as
    unsigned) that differ, a zero byte ending a string. *)
Definition byte_at (s : string) : Z :=
  match s with
  | EmptyString => 0
  | String c _ => Z.of_N (N_of_ascii c)
  end.

Fixpoint strcmp (a b : string) : Z :=
  match a, b with
  | String c a', String d b' =>
      if (byte_at a =? byte_at b) && negb (byte_at a =? 0)
      then strcmp a' b'
      else byte_at a - byte_at b
  | _, _ => byte_at a - byte_at b
  end.

(** ** The functions of list.c *)

(** Modelled from the spec: [emalloc.c] is not part of the sources; the
    spec gives the allocator "allocate-or-terminate" semantics.  Here it
    returns a location that is not allocated yet. *)
Definition emalloc : M mem loc :=
  fun m => Ok (fresh (dom (nodes m)), m).

Definition new_node (val : ptr) : M mem ptr :=
  match val with
  | None => fault                       (* assert(val != NULL) *)
  | Some _ =>
      let* temp := emalloc in
      fun m => Ok (Some temp,
                   Mem (songs m) (<[temp := Node.mk val NULL]> (nodes m)))
  end.

Definition add_front (lst new : ptr) : M mem ptr :=
  store_next new lst ;;;
  ret new.

(** The [for] loop of [add_end] (line 78): walk to the node whose
    next-link is [NULL]. *)
Definition last_node (fuel : nat) (lst : ptr) : M mem ptr :=
  while fuel
    (fun curr => let* nx := get_next curr in ret (bool_decide (nx ≠ NULL)))
    (fun curr => get_next curr)
    lst.

Definition add_end (fuel : nat) (lst new : ptr) : M mem ptr :=
  match lst with
  | None =>
      store_next new NULL ;;;
      ret new
  | Some _ =>
      let* curr := last_node fuel lst in
      store_next curr new ;;;
      store_next new NULL ;;;
      ret lst
  end.

(** The three [while] loops of [add_inorder], on the pair [(prev, cur)]. *)

(** Lines 131-134: no test of [cur] against [NULL]. *)
Definition scan_ties_head (fuel : nat) (new : ptr) : ptr * ptr -> M mem (ptr * ptr) :=
  while fuel
    (fun '(prev, cur) =>
       let* nc := get_comparator new in
       let* cc := get_comparator cur in
       if nc =? cc then
         let* nt := get_title new in
         let* ct := get_title cur in
         ret (strcmp nt ct <? 0)
       else ret false)
    (fun '(prev, cur) =>
       let* prev' := get_next prev in
       let* cur' := get_next cur in
       ret (prev', cur')).

(** Lines 139-142. *)
Definition scan_greater (fuel : nat) (new : ptr) : ptr * ptr -> M mem (ptr * ptr) :=
  while fuel
    (fun '(prev, cur) =>
       match cur with
       | None => ret false
       | Some _ =>
           let* nc := get_comparator new in
           let* cc := get_comparator cur in
           ret (nc <? cc)
       end)
    (fun '(prev, cur) =>
       let* cur' := get_next cur in
       let* prev' := get_next prev in
       ret (prev', cur')).

(** Lines 143-146. *)
Definition scan_ties (fuel : nat) (new : ptr) : ptr * ptr -> M mem (ptr * ptr) :=
  while fuel
    (fun '(prev, cur) =>
       match cur with
       | None => ret false
       | Some _ =>
           let* nc := get_comparator new in
           let* cc := get_comparator cur in
           if nc =? cc then
             let* nt := get_title new in
             let* ct := get_title cur in
             ret (strcmp nt ct <? 0)
           else ret false
       end)
    (fun '(prev, cur) =>
       let* prev' := get_next prev in
       let* cur' := get_next cur in
       ret (prev', cur')).

Definition add_inorder (fuel : nat) (lst new : ptr) : M mem ptr :=
  match lst with
  | None => ret new
  | Some _ =>
      let* lnext := get_next lst in
      match lnext with
      | None =>
          let* lc := get_comparator lst in
          let* nc := get_comparator new in
          if lc >? nc then
            store_next lst new ;;; ret lst
          else
            let* lc := get_comparator lst in
            let* nc := get_comparator new in
            if lc <? nc then
              store_next new lst ;;; ret new
            else
              let* la := get_artist lst in
              let* na := get_artist new in
              if strcmp la na <? 0 then
                store_next lst new ;;; ret lst
              else
                store_next new lst ;;; ret new
      | Some _ =>
          let prev := lst in
          let* cur := get_next lst in
          let* nc := get_comparator new in
          let* pc := get_comparator prev in
          if nc >? pc then
            store_next new prev ;;; ret new
          else
            let* nc := get_comparator new in
            let* pc := get_comparator prev in
            if nc =? pc then
              let* nt := get_title new in
              let* pt := get_title prev in
              if strcmp nt pt >? 0 then
                store_next new prev ;;; ret new
              else
                let* (prev, cur) := scan_ties_head fuel new (prev, cur) in
                store_next prev new ;;;
                store_next new cur ;;;
                ret lst
            else
              let* (prev, cur) := scan_greater fuel new (prev, cur) in
              let* (prev, cur) := scan_ties fuel new (prev, cur) in
              store_next prev new ;;;
              store_next new cur ;;;
              ret lst
      end
  end.

Definition peek_front (lst : ptr) : M mem ptr :=
  ret lst.

Definition remove_front (lst : ptr) : M mem ptr :=
  match lst with
  | None => ret NULL
  | Some _ => get_next lst
  end.

(** [apply] runs on the list memory together with the caller's own state
    [W], which the visitor may update (printing, accumulating). *)
Section Apply.
Context {W A : Type}.

Definition visitor : Type := ptr -> A -> M (mem * W) unit.

Definition lift {B} (c : M mem B) : M (mem * W) B :=
  fun s => match c s.1 with
           | Ok (b, m') => Ok (b, (m', s.2))
           | Fault => Fault
           | Timeout => Timeout
           end.

Definition apply (fuel : nat) (lst : ptr) (fn : visitor) (arg : A)
  : M (mem * W) unit :=
  while fuel
    (fun lst => ret (bool_decide (lst ≠ NULL)))
    (fun lst => fn lst arg ;;; lift (get_next lst))
    lst ;;;
  ret tt.
End Apply.

(** ** Clients and observations *)

(** A caller that builds a list by ordered insertion only: for each song
    reference, [lst = add_inorder(lst, new_node(val))]. *)
Fixpoint insert_all (fuel : nat) (vals : list ptr) (lst : ptr) : M mem ptr :=
  match vals with
  | [] => ret lst
  | val :: vals' =>
      let* new := new_node val in
      let* lst' := add_inorder fuel lst new in
      insert_all fuel vals' lst'
  end.

(** The song a node refers to. *)
Definition song_of (m : mem) (l : loc) : option Song.t :=
  match nodes m !! l with
  | Some n => match Node.song n with
              | Some sp => songs m !! sp
              | None => None
              end
  | None => None
  end.

(** The chain read from [p] to the end: the nodes and their songs, in
    traversal order. *)
Fixpoint traverse (fuel : nat) (m : mem) (p : ptr) : option (list (loc * Song.t)) :=
  match p with
  | None => Some []
  | Some l =>
      match fuel with
      | O => None
      | S fuel' =>
          match nodes m !! l, song_of m l with
          | Some n, Some s =>
              match traverse fuel' m (Node.next n) with
              | Some xs => Some ((l, s) :: xs)
              | None => None
              end
          | _, _ => None
          end
      end
  end.

(** The chain of nodes from [p] to [NULL], as a relation. *)
Fixpoint chain (m : mem) (p : ptr) (ls : list loc) : Prop :=
  match ls with
  | [] => p = NULL
  | l :: ls' => p = Some l ∧ ∃ n, nodes m !! l = Some n ∧ chain m (Node.next n) ls'
  end.

(** The chain with the song of each node. *)
Definition is_list (m : mem) (p : ptr) (xs : list (loc * Song.t)) : Prop :=
  chain m p xs.*1 ∧ Forall (fun x => song_of m x.1 = Some x.2) xs.

Definition head_ptr {A} (xs : list (loc * A)) : ptr := fst <$> head xs.

(** ** The insertion on sequences

    What the branches and loops of [add_inorder] compute on the sequence
    of the list's elements; [None] is the run that reads through [NULL]. *)
Section Ins.
Context {A : Type} (sg : A -> Song.t).

Definition cmp (x : A) : Z := Song.comparator (sg x).
Definition title (x : A) : string := Song.song (sg x).

Definition tie_before (x y : A) : bool :=
  (cmp x =? cmp y) && (strcmp (title x) (title y) <? 0).

Fixpoint ins_ties (x : A) (t : list A) : list A :=
  match t with
  | [] => [x]
  | y :: t' => if tie_before x y then y :: ins_ties x t' else x :: t
  end.

Fixpoint ins_ties_head (x : A) (t : list A) : option (list A) :=
  match t with
  | [] => None
  | y :: t' =>
      if tie_before x y then cons y <$> ins_ties_head x t' else Some (x :: t)
  end.

Fixpoint ins_greater (x : A) (t : list A) : list A :=
  match t with
  | [] => [x]
  | y :: t' => if cmp x <? cmp y then y :: ins_greater x t' else ins_ties x t
  end.

Definition ins (x : A) (xs : list A) : option (list A) :=
  match xs with
  | [] => Some [x]
  | [h] =>
      if cmp h >? cmp x then Some [h; x]
      else if cmp h <? cmp x then Some [x; h]
      else if strcmp (Song.artist (sg h)) (Song.artist (sg x)) <? 0
           then Some [h; x] else Some [x; h]
  | h :: t =>
      if cmp x >? cmp h then Some (x :: xs)
      else if cmp x =? cmp h then
        if strcmp (title x) (title h) >? 0 then Some (x :: xs)
        else cons h <$> ins_ties_head x t
      else Some (h :: ins_greater x t)
  end.

Fixpoint ins_all (xs : list A) (acc : list A) : option (list A) :=
  match xs with
  | [] => Some acc
  | x :: xs' =>
      match ins x acc with
      | Some acc' => ins_all xs' acc'
      | None => None
      end
  end.

(** The order the list is kept in: comparator descending. *)
Definition cmp_desc (x y : A) : Prop := cmp x >= cmp y.

(** Comparator descending, then title descending among equal
    comparators (the "reverse alphabetically" of the source). *)
Definition song_desc (x y : A) : Prop :=
  cmp x > cmp y ∨ (cmp x = cmp y ∧ strcmp (title x) (title y) >= 0).

(** Comparator descending, then title ascending among equal comparators. *)
Definition song_asc_title (x y : A) : Prop :=
  cmp x > cmp y ∨ (cmp x = cmp y ∧ strcmp (title x) (title y) <= 0).

(** [r] is [xs] with [x] put in at some position. *)
Definition inserted (x : A) (xs r : list A) : Prop :=
  ∃ pre post, xs = pre ++ post ∧ r = pre ++ x :: post.
End Ins.

(** ** Specification devices *)

(** The memory after [p->next = v] on an allocated node. *)
Definition set_next (l : loc) (v : ptr) (m : mem) : mem :=
  match nodes m !! l with
  | Some n => Mem (songs m) (<[l := Node.mk (Node.song n) v]> (nodes m))
  | None => m
  end.

(** In front of a scan: [prev] is node [pl], the rest of the list from
    [prev->next] is [t], and the new node [nl] is allocated and apart. *)
Definition scan_pre (nl : loc) (nn : Node.t) (ns : Song.t)
    (m : mem) (pl : loc) (pn : Node.t) (t : list (loc * Song.t)) : Prop :=
  nodes m !! pl = Some pn ∧ is_list m (Node.next pn) t ∧
  nodes m !! nl = Some nn ∧ song_of m nl = Some ns ∧
  nl ≠ pl ∧ (nl ∉ t.*1) ∧ (pl ∉ t.*1).

(** After the scan and the two stores: the rest of the list from
    [prev->next] is [t'] and nothing else has changed; [None] is a fault. *)
Definition scan_post (lst : ptr) (nl : loc)
    (m : mem) (pl : loc) (pn : Node.t) (t : list (loc * Song.t))
    (r : option (list (loc * Song.t))) (out : res (ptr * mem)) : Prop :=
  match r with
  | None => out = Fault
  | Some t' =>
      ∃ m' pn', out = Ok (lst, m') ∧
        nodes m' !! pl = Some pn' ∧ Node.song pn' = Node.song pn ∧
        is_list m' (Node.next pn') t' ∧
        songs m' = songs m ∧ dom (nodes m') = dom (nodes m) ∧
        ∀ l, l ≠ nl -> l ≠ pl -> l ∉ (t.*1) -> nodes m' !! l = nodes m !! l
  end.

(** What a call of [add_inorder] with new node [nl] on the list [xs]
    leaves: the list [xs'] from the returned head, the songs and the set of
    allocated nodes as before, and no node outside the list written;
    [None] is a fault. *)
Definition add_inorder_post (m : mem) (nl : loc) (xs : list (loc * Song.t))
    (r : option (list (loc * Song.t))) (out : res (ptr * mem)) : Prop :=
  match r with
  | None => out = Fault
  | Some xs' =>
      ∃ m', out = Ok (head_ptr xs', m') ∧ is_list m' (head_ptr xs') xs' ∧
        songs m' = songs m ∧ dom (nodes m') = dom (nodes m) ∧
        ∀ l, l ≠ nl -> (l ∉ xs.*1) -> nodes m' !! l = nodes m !! l
  end.

(** The one-node branch of [add_inorder] is not decided by the artists:
    the first two songs of the sequence differ in comparator. *)
Definition no_artist_tie (ss : list Song.t) : Prop :=
  match ss with
  | s1 :: s2 :: _ => Song.comparator s1 ≠ Song.comparator s2
  | _ => True
  end.

(** Calling the visitor on the nodes [ls], one after the other. *)
Fixpoint visit_all {W A} (fn : @visitor W A) (arg : A) (ls : list loc)
  : M (mem * W) unit :=
  match ls with
  | [] => ret tt
  | l :: ls' => fn (Some l) arg ;;; visit_all fn arg ls'
  end.

(** A visitor that writes down each call: the node and the context. *)
Definition record {A} : @visitor (list (ptr * A)) A :=
  fun p a s => Ok (tt, (s.1, s.2 ++ [(p, a)])).

(** A visitor that leaves every next-link as it is. *)
Definition keeps_links {W A} (fn : @visitor W A) : Prop :=
  ∀ p a s u s', fn p a s = Ok (u, s') ->
    ∀ l, Node.next <$> nodes s'.1 !! l = Node.next <$> nodes s.1 !! l.

(** ** Concrete memories *)

(** A memory holding the songs [ss] at references 1, 2, ... and no node. *)
Definition refs_of (ss : list Song.t) : list loc :=
  Pos.of_nat <$> seq 1 (length ss).

Definition mem_of_songs (ss : list Song.t) : mem :=
  Mem (list_to_map (zip (refs_of ss) ss)) ∅.

(** A memory holding the songs [ss] at references 1, 2, ..., one node per
    song at the same locations, the first [k] nodes linked into a chain
    from node 1 and the others with no successor. *)
Definition chain_nodes (k n : nat) : gmap loc Node.t :=
  list_to_map
    ((fun i => (Pos.of_nat i,
                Node.mk (Some (Pos.of_nat i))
                        (if (i <? k)%nat then Some (Pos.of_nat (S i)) else NULL)))
       <$> seq 1 n).

Definition mem_of_chain (ss : list Song.t) (k : nat) : mem :=
  Mem (list_to_map (zip (refs_of ss) ss)) (chain_nodes k (length ss)).

(** Comparators 5, 3, 8, 3, the two 3s titled "B" and "A". *)
Definition scenario_songs (a1 a2 a3 a4 t5 t8 : string) : list Song.t :=
  [ Song.mk a1 t5 5; Song.mk a2 "B" 3; Song.mk a3 t8 8; Song.mk a4 "A" 3 ].

Definition plain_scenario : list Song.t :=
  scenario_songs "p" "q" "r" "s" "Five" "Eight".

(** Comparators 5, 3, 3 with titles "B" then "A" for the two 3s. *)
Definition short_scenario : list Song.t :=
  [ Song.mk "p" "Five" 5; Song.mk "q" "B" 3; Song.mk "r" "A" 3 ].

(** Three songs of comparator 3 with titles "C", "B", "A". *)
Definition tie_songs : list Song.t :=
  [ Song.mk "p" "C" 3; Song.mk "q" "B" 3; Song.mk "r" "A" 3 ].

(** Three songs of comparator 3 with titles "C", "A", "B", and with titles
    "A", "C", "B". *)
Definition desc_tie_songs : list Song.t :=
  [ Song.mk "p" "C" 3; Song.mk "q" "A" 3; Song.mk "r" "B" 3 ].

Definition asc_tie_songs : list Song.t :=
  [ Song.mk "p" "A" 3; Song.mk "q" "C" 3; Song.mk "r" "B" 3 ].

(** ** Devices for the further properties *)

(** A computation that, when it returns, has left the song store, the set
    of allocated nodes and the song reference of every node as they were. *)
Definition keeps_songs {A} (c : M mem A) : Prop :=
  ∀ m a m', c m = Ok (a, m') ->
    songs m' = songs m ∧ dom (nodes m') = dom (nodes m) ∧
    ∀ l, Node.song <$> nodes m' !! l = Node.song <$> nodes m !! l.

(** A visitor that cuts the next-link of the node it is given and writes
    the call down. *)
Definition cut_and_record {A} : @visitor (list (ptr * A)) A :=
  fun p a =>
    lift (store_next p NULL) ;;;
    fun s => Ok (tt, (s.1, s.2 ++ [(p, a)])).

(** Comparators 1, 2, 9 and comparators 5, 4, 1. *)
Definition rising_songs : list Song.t :=
  [ Song.mk "p" "A" 1; Song.mk "q" "B" 2; Song.mk "r" "C" 9 ].

Definition falling_songs : list Song.t :=
  [ Song.mk "p" "A" 5; Song.mk "q" "B" 4; Song.mk "r" "C" 1 ].

(** ** Properties of [strcmp] *)

Lemma strcmp_opp (a b : string) : strcmp b a = - strcmp a b.
Proof.
  revert b; induction a as [|c a IH]; intros [|d b]; simpl; try lia.
  rewrite (Z.eqb_sym (Z.of_N (N_of_ascii d))).
  destruct (Z.eqb_spec (Z.of_N (N_of_ascii c)) (Z.of_N (N_of_ascii d))) as [E|E];
    simpl; [|lia].
  rewrite <- E.
  destruct (Z.eqb_spec (Z.of_N (N_of_ascii c)) 0); simpl; [lia|apply IH].
Qed.

Lemma strcmp_trans_ge (a b c : string) :
  strcmp a b >= 0 -> strcmp b c >= 0 -> strcmp a c >= 0.
Proof.
  revert b c; induction a as [|x a IH]; intros [|y b] [|z c]; simpl;
    try lia;
    repeat match goal with
    | |- context [Z.of_N (N_of_ascii ?c)] =>
        let n := fresh "n" in
        let Hn := fresh "Hn" in
        assert (Hn : 0 <= Z.of_N (N_of_ascii c)) by lia;
        set (n := Z.of_N (N_of_ascii c)) in *; clearbody n
    end;
    repeat match goal with
    | |- context [Z.eqb ?u ?v] => destruct (Z.eqb_spec u v); simpl
    end; try lia; subst; try lia; eauto.
Qed.

(** ** Properties of the insertion on sequences *)

Section InsFacts.
Context {A : Type} (sg : A -> Song.t).
Implicit Types (x y : A) (t xs : list A).

Local Abbreviation cmp := (cmp sg).
Local Abbreviation title := (title sg).
Local Abbreviation tie_before := (tie_before sg).
Local Abbreviation ins_ties := (ins_ties sg).
Local Abbreviation ins_ties_head := (ins_ties_head sg).
Local Abbreviation ins_greater := (ins_greater sg).
Local Abbreviation ins := (ins sg).
Local Abbreviation ins_all := (ins_all sg).

Lemma tie_before_true x y :
  tie_before x y = true <-> cmp x = cmp y ∧ strcmp (title x) (title y) < 0.
Proof.
  unfold tie_before. rewrite andb_true_iff, Z.eqb_eq, Z.ltb_lt. tauto.
Qed.

Lemma ins_ties_head_Some x t r : ins_ties_head x t = Some r -> r = ins_ties x t.
Proof.
  revert r; induction t as [|y t IH]; intros r; simpl; [done|].
  destruct (tie_before x y); [|congruence].
  destruct (ins_ties_head x t) as [r'|]; simpl; [|done].
  intros [= <-]. by rewrite (IH r').
Qed.

(** The scan from the head returns exactly when it meets a node that
    stops it before the end of the list. *)
Lemma ins_ties_head_None x t :
  ins_ties_head x t = None <-> Forall (fun y => tie_before x y = true) t.
Proof.
  induction t as [|y t IH]; simpl; [split; auto|].
  destruct (tie_before x y) eqn:E.
  - destruct (ins_ties_head x t); simpl; split; try done.
    + intros H. apply Forall_cons in H as [_ H]. by apply IH in H.
    + intros _. constructor; [done|]. by apply IH.
  - split; [done|]. intros H. apply Forall_cons in H as [H _]. congruence.
Qed.

Lemma inserted_cons x y xs r : inserted x xs r -> inserted x (y :: xs) (y :: r).
Proof. intros (pre & post & -> & ->). by exists (y :: pre), post. Qed.

Lemma inserted_here x xs : inserted x xs (x :: xs).
Proof. by exists [], xs. Qed.

Lemma inserted_Permutation x xs r : inserted x xs r -> r ≡ₚ x :: xs.
Proof. intros (pre & post & -> & ->). by rewrite Permutation_middle. Qed.

Lemma inserted_length x xs r : inserted x xs r -> length r = S (length xs).
Proof. intros H. by rewrite (inserted_Permutation _ _ _ H). Qed.

Lemma ins_ties_inserted x t : inserted x t (ins_ties x t).
Proof.
  induction t as [|y t IH]; simpl; [apply inserted_here|].
  destruct (tie_before x y); [by apply inserted_cons | apply inserted_here].
Qed.

Lemma ins_greater_inserted x t : inserted x t (ins_greater x t).
Proof.
  induction t as [|y t IH]; simpl; [apply inserted_here|].
  destruct (cmp x <? cmp y); [by apply inserted_cons|].
  apply (ins_ties_inserted x (y :: t)).
Qed.

Lemma ins_inserted x xs r : ins x xs = Some r -> inserted x xs r.
Proof.
  destruct xs as [|h [|h' t]]; unfold ins; cbv beta iota.
  - intros [= <-]. apply inserted_here.
  - repeat case_match; intros [= <-];
      first [apply inserted_here | by exists [h], []].
  - destruct (cmp x >? cmp h); [intros [= <-]; apply inserted_here|].
    destruct (cmp x =? cmp h).
    + destruct (strcmp (title x) (title h) >? 0);
        [intros [= <-]; apply inserted_here|].
      destruct (ins_ties_head x (h' :: t)) as [r'|] eqn:E; simpl; [|done].
      intros [= <-]. apply ins_ties_head_Some in E as ->.
      apply inserted_cons, ins_ties_inserted.
    + intros [= <-]. apply inserted_cons, ins_greater_inserted.
Qed.

Lemma ins_all_Permutation xs acc r :
  ins_all xs acc = Some r -> r ≡ₚ reverse xs ++ acc.
Proof.
  revert acc; induction xs as [|x xs IH]; intros acc; simpl.
  - by intros [= <-].
  - destruct (ins x acc) as [acc'|] eqn:E; [|done].
    intros H. rewrite (IH _ H), reverse_cons, <- app_assoc. simpl.
    apply Permutation_app_head, inserted_Permutation, ins_inserted, E.
Qed.

(** *** The order is kept

    [R] is any order on the elements that the scans respect; both
    [cmp_desc] and [song_desc] are such. *)
Section Order.
Context (R : relation A).
Hypothesis R_cmp : ∀ x y, R x y -> cmp x >= cmp y.
Hypothesis R_tie : ∀ x y, tie_before x y = true -> R y x.
Hypothesis R_stop : ∀ x y, cmp x >= cmp y -> tie_before x y = false -> R x y.
Hypothesis R_greater : ∀ x y, cmp x < cmp y -> R y x.
Hypothesis R_head_gt :
  ∀ x h, cmp x = cmp h -> strcmp (title x) (title h) > 0 -> R x h.
Hypothesis R_head_le :
  ∀ x h, cmp x = cmp h -> ¬ strcmp (title x) (title h) > 0 -> R h x.

Lemma ins_ties_sorted x t :
  Sorted R t ->
  (∀ y, head t = Some y -> cmp x >= cmp y) ->
  Sorted R (ins_ties x t) ∧
  ∀ p, R p x -> HdRel R p t -> HdRel R p (ins_ties x t).
Proof.
  induction t as [|y t IH]; simpl; intros Hs Hhd.
  - split; [repeat constructor|]. intros p Hp _. by constructor.
  - apply Sorted_inv in Hs as [Hs Hy].
    destruct (tie_before x y) eqn:E.
    + destruct IH as [IH1 IH2]; [done| |].
      { intros y' Hy'. destruct t as [|z t]; simplify_eq/=.
        apply HdRel_inv in Hy. apply R_cmp in Hy.
        apply tie_before_true in E as [E _]. lia. }
      split.
      * constructor; [done|]. apply IH2; [by apply R_tie | done].
      * intros p _ Hp. apply HdRel_inv in Hp. by constructor.
    + split.
      * constructor; [by constructor|]. constructor.
        apply R_stop; [by apply Hhd | done].
      * intros p Hp _. by constructor.
Qed.

Lemma ins_greater_sorted x t :
  Sorted R t ->
  Sorted R (ins_greater x t) ∧
  ∀ p, R p x -> HdRel R p t -> HdRel R p (ins_greater x t).
Proof.
  induction t as [|y t IH]; simpl; intros Hs.
  - split; [repeat constructor|]. intros p Hp _. by constructor.
  - destruct (Z.ltb_spec (cmp x) (cmp y)) as [Hlt|Hge].
    + apply Sorted_inv in Hs as [Hs Hy]. destruct (IH Hs) as [IH1 IH2].
      split.
      * constructor; [done|]. apply IH2; [by apply R_greater | done].
      * intros p _ Hp. apply HdRel_inv in Hp. by constructor.
    + apply (ins_ties_sorted x (y :: t)); [done|].
      intros ? [= <-]. lia.
Qed.

(** On a list of two nodes or more, [ins] keeps the order. *)
Lemma ins_sorted_general x xs r :
  (2 <= length xs)%nat -> Sorted R xs -> ins x xs = Some r -> Sorted R r.
Proof.
  destruct xs as [|h [|h' t]]; intros Hlen Hs; simpl in Hlen; try lia.
  unfold ins; cbv beta iota.
  destruct (Z.gtb_spec (cmp x) (cmp h)) as [Hgt|Hle].
  { intros [= <-]. constructor; [done|]. constructor. apply R_greater. lia. }
  destruct (Z.eqb_spec (cmp x) (cmp h)) as [Heq|Hne].
  - destruct (Z.gtb_spec (strcmp (title x) (title h)) 0) as [Ht|Ht].
    { intros [= <-]. constructor; [done|]. constructor.
      apply R_head_gt; [done | lia]. }
    destruct (ins_ties_head x (h' :: t)) as [r'|] eqn:E; simpl; [|done].
    intros [= <-]. apply ins_ties_head_Some in E as ->.
    apply Sorted_inv in Hs as [Hs Hh].
    destruct (ins_ties_sorted x (h' :: t)) as [H1 H2]; [done| |].
    { intros ? [= <-]. apply HdRel_inv, R_cmp in Hh. lia. }
    constructor; [done|]. apply H2; [|done]. apply R_head_le; [done | lia].
  - intros [= <-]. apply Sorted_inv in Hs as [Hs Hh].
    destruct (ins_greater_sorted x (h' :: t)) as [H1 H2]; [done|].
    constructor; [done|]. apply H2; [|done]. apply R_greater. lia.
Qed.
End Order.

Lemma cmp_desc_ins_sorted x xs r :
  Sorted (cmp_desc sg) xs -> ins x xs = Some r -> Sorted (cmp_desc sg) r.
Proof.
  intros Hs Hi. destruct xs as [|h [|h' t]].
  - injection Hi as <-. repeat constructor.
  - revert Hi. unfold ins.
    destruct (Z.gtb_spec (cmp h) (cmp x)); [|destruct (Z.ltb_spec (cmp h) (cmp x))];
      [| |case_match]; intros [= <-];
      repeat constructor; unfold cmp_desc; lia.
  - revert Hi. apply ins_sorted_general; unfold cmp_desc;
      try (simpl; lia); try done; intros ? ?; try lia.
    intros H%tie_before_true. fold (cmp x) (cmp y). lia.
Qed.

Lemma song_desc_ins_sorted x xs r :
  (2 <= length xs)%nat ->
  Sorted (song_desc sg) xs -> ins x xs = Some r -> Sorted (song_desc sg) r.
Proof.
  apply ins_sorted_general; unfold song_desc; fold cmp title.
  - intros ? ? [|[]]; lia.
  - intros x0 y H%tie_before_true. right. rewrite (strcmp_opp (title x0)). lia.
  - intros x0 y H1 H2. destruct (decide (cmp x0 = cmp y)) as [E|E]; [|lia].
    right. split; [done|]. unfold tie_before in H2.
    apply andb_false_iff in H2 as [H2%Z.eqb_neq | H2%Z.ltb_ge]; [done | lia].
  - intros; lia.
  - intros; lia.
  - intros x0 h E H. right. rewrite (strcmp_opp (title x0)). lia.
Qed.

#[local] Instance cmp_desc_trans : Transitive (cmp_desc sg).
Proof. unfold cmp_desc. intros ? ? ?. lia. Qed.

#[local] Instance song_desc_trans : Transitive (song_desc sg).
Proof.
  unfold song_desc. intros x y z [H1|[H1 H1']] [H2|[H2 H2']]; try lia.
  right. split; [lia|]. eapply strcmp_trans_ge; eauto.
Qed.
End InsFacts.

(** ** Monad laws *)

Lemma bind_assoc {St A B C} (c : M St A) (k1 : A -> M St B) (k2 : B -> M St C) s :
  bind (bind c k1) k2 s = bind c (fun a => bind (k1 a) k2) s.
Proof. unfold bind. by destruct (c s) as [[a s']| |]. Qed.

Lemma bind_Ok {St A B} (c : M St A) (k : A -> M St B) s a s' :
  c s = Ok (a, s') -> bind c k s = k a s'.
Proof. intros H. unfold bind. by rewrite H. Qed.

Lemma bind_Fault {St A B} (c : M St A) (k : A -> M St B) s :
  c s = Fault -> bind c k s = Fault.
Proof. intros H. unfold bind. by rewrite H. Qed.

Lemma bind_Timeout {St A B} (c : M St A) (k : A -> M St B) s :
  c s = Timeout -> bind c k s = Timeout.
Proof. intros H. unfold bind. by rewrite H. Qed.

Lemma bind_ret {St A B} (a : A) (k : A -> M St B) s : bind (ret a) k s = k a s.
Proof. done. Qed.

(** ** Memory lemmas *)

Lemma store_next_ok m l n v :
  nodes m !! l = Some n -> store_next (Some l) v m = Ok (tt, set_next l v m).
Proof. intros H. unfold store_next, set_next. by rewrite H. Qed.

Lemma nodes_set_next_eq m l n v :
  nodes m !! l = Some n ->
  nodes (set_next l v m) !! l = Some (Node.mk (Node.song n) v).
Proof. intros H. unfold set_next. rewrite H. simpl. apply lookup_insert_eq. Qed.

Lemma nodes_set_next_ne m l l' v :
  l ≠ l' -> nodes (set_next l v m) !! l' = nodes m !! l'.
Proof.
  intros H. unfold set_next. destruct (nodes m !! l); [|done].
  simpl. by apply lookup_insert_ne.
Qed.

Lemma songs_set_next m l v : songs (set_next l v m) = songs m.
Proof. unfold set_next. by destruct (nodes m !! l). Qed.

Lemma dom_set_next m l v : dom (nodes (set_next l v m)) = dom (nodes m).
Proof.
  unfold set_next. destruct (nodes m !! l) eqn:E; [|done]. simpl.
  rewrite dom_insert_L. apply subseteq_union_1_L, singleton_subseteq_l.
  by eapply elem_of_dom_2.
Qed.

Lemma song_of_set_next m l v l' : song_of (set_next l v m) l' = song_of m l'.
Proof.
  unfold song_of. rewrite songs_set_next.
  destruct (decide (l = l')) as [<-|Hne].
  - destruct (nodes m !! l) as [n|] eqn:E.
    + by rewrite (nodes_set_next_eq _ _ n).
    + unfold set_next. rewrite E. simpl. by rewrite E.
  - by rewrite nodes_set_next_ne by done.
Qed.

Lemma get_next_ok m l n :
  nodes m !! l = Some n -> get_next (Some l) m = Ok (Node.next n, m).
Proof. intros H. unfold get_next, bind, load_node. cbv beta iota. by rewrite H. Qed.

Lemma song_of_Some m l s :
  song_of m l = Some s ->
  ∃ n sp, nodes m !! l = Some n ∧ Node.song n = Some sp ∧ songs m !! sp = Some s.
Proof.
  unfold song_of. destruct (nodes m !! l) as [n|]; [|done].
  destruct (Node.song n) as [sp|] eqn:E; [|done]. eauto.
Qed.

Lemma get_comparator_ok m l s :
  song_of m l = Some s -> get_comparator (Some l) m = Ok (Song.comparator s, m).
Proof.
  intros (n & sp & H1 & H2 & H3)%song_of_Some.
  unfold get_comparator, bind, load_node, load_song. cbv beta iota.
  rewrite H1, H2. cbv beta iota. by rewrite H3.
Qed.

Lemma get_title_ok m l s :
  song_of m l = Some s -> get_title (Some l) m = Ok (Song.song s, m).
Proof.
  intros (n & sp & H1 & H2 & H3)%song_of_Some.
  unfold get_title, bind, load_node, load_song. cbv beta iota.
  rewrite H1, H2. cbv beta iota. by rewrite H3.
Qed.

Lemma get_artist_ok m l s :
  song_of m l = Some s -> get_artist (Some l) m = Ok (Song.artist s, m).
Proof.
  intros (n & sp & H1 & H2 & H3)%song_of_Some.
  unfold get_artist, bind, load_node, load_song. cbv beta iota.
  rewrite H1, H2. cbv beta iota. by rewrite H3.
Qed.

(** ** Chains *)

Lemma chain_frame m m' p ls :
  (∀ l, l ∈ ls -> nodes m' !! l = nodes m !! l) -> chain m p ls -> chain m' p ls.
Proof.
  revert p; induction ls as [|l ls IH]; intros p Hf; simpl; [done|].
  intros (-> & n & Hn & Hc). split; [done|]. exists n. split.
  - rewrite Hf; [done | by left].
  - apply IH; [|done]. intros l' Hl'. apply Hf. by right.
Qed.

Lemma chain_functional m p ls1 ls2 : chain m p ls1 -> chain m p ls2 -> ls1 = ls2.
Proof.
  revert p ls2; induction ls1 as [|l ls1 IH]; intros p [|l2 ls2]; simpl.
  - done.
  - by intros -> [? _].
  - by intros [-> _] ?.
  - intros (-> & n & Hn & Hc) ([= <-] & n2 & Hn2 & Hc2).
    rewrite Hn in Hn2. injection Hn2 as <-. f_equal. eauto.
Qed.

Lemma chain_from_elem m p ls l :
  chain m p ls -> l ∈ ls ->
  ∃ ls', chain m (Some l) ls' ∧ (length ls' <= length ls)%nat.
Proof.
  revert p; induction ls as [|l0 ls IH]; intros p Hc Hin.
  - by apply elem_of_nil in Hin.
  - destruct Hc as (-> & n & Hn & Hc).
    apply elem_of_cons in Hin as [->|Hin].
    + exists (l0 :: ls). split; [|done]. simpl. eauto.
    + destruct (IH _ Hc Hin) as (ls' & H1 & H2). exists ls'. split; [done|].
      simpl. lia.
Qed.

Lemma chain_NoDup m p ls : chain m p ls -> NoDup ls.
Proof.
  revert p; induction ls as [|l ls IH]; intros p Hc; [constructor|].
  pose proof Hc as (-> & n & Hn & Hc'). constructor; [|by eapply IH].
  intros Hin. destruct (chain_from_elem _ _ _ _ Hc' Hin) as (ls' & H1 & H2).
  pose proof (chain_functional _ _ _ _ Hc H1) as <-. simpl in H2. lia.
Qed.

Lemma chain_allocated m p ls l : chain m p ls -> l ∈ ls -> l ∈ dom (nodes m).
Proof.
  revert p; induction ls as [|l0 ls IH]; intros p Hc Hin.
  - by apply elem_of_nil in Hin.
  - destruct Hc as (-> & n & Hn & Hc).
    apply elem_of_cons in Hin as [->|Hin]; [by eapply elem_of_dom_2 | eauto].
Qed.

Lemma is_list_nil m p : is_list m p [] <-> p = NULL.
Proof. unfold is_list. simpl. split; [by intros [? _] | by split]. Qed.

Lemma is_list_cons m p x xs :
  is_list m p (x :: xs) <->
  p = Some x.1 ∧ song_of m x.1 = Some x.2 ∧
  ∃ n, nodes m !! x.1 = Some n ∧ is_list m (Node.next n) xs.
Proof.
  unfold is_list. simpl. rewrite Forall_cons. split.
  - intros [(-> & n & Hn & Hc) [Hs Hf]]. eauto 10.
  - intros (-> & Hs & n & Hn & Hc & Hf). eauto 10.
Qed.

Lemma is_list_frame m m' p xs :
  (∀ l, l ∈ (xs.*1) -> nodes m' !! l = nodes m !! l) ->
  songs m' = songs m ->
  is_list m p xs -> is_list m' p xs.
Proof.
  intros Hf Hs [Hc Hall]. split; [by eapply chain_frame|].
  apply Forall_forall. intros x Hx.
  rewrite Forall_forall in Hall. rewrite <- (Hall x Hx).
  unfold song_of. rewrite Hs, Hf; [done|].
  apply list_elem_of_fmap. by exists x.
Qed.

Lemma is_list_NoDup m p xs : is_list m p xs -> NoDup xs.*1.
Proof. intros [Hc _]. by eapply chain_NoDup. Qed.

Lemma is_list_allocated m p xs l :
  is_list m p xs -> l ∈ (xs.*1) -> l ∈ dom (nodes m).
Proof. intros [Hc _]. by eapply chain_allocated. Qed.

Lemma is_list_head m p xs : is_list m p xs -> p = head_ptr xs.
Proof.
  destruct xs as [|x xs]; [by intros ->%is_list_nil|].
  by intros (-> & _)%is_list_cons.
Qed.

(** ** The scans of [add_inorder] *)

Section Scan.
Context (lst : ptr) (nl : loc) (nn : Node.t) (ns : Song.t).

Lemma link_post m pl pn t :
  scan_pre nl nn ns m pl pn t ->
  scan_post lst nl m pl pn t (Some ((nl, ns) :: t))
    ((store_next (Some pl) (Some nl) ;;;
      store_next (Some nl) (Node.next pn) ;;;
      ret lst) m).
Proof.
  intros (Hpl & Ht & Hnl & Hns & Hne & Hnt & Hpt).
  unfold bind. rewrite (store_next_ok _ _ _ _ Hpl).
  assert (nodes (set_next pl (Some nl) m) !! nl = Some nn) as Hnl1.
  { by rewrite nodes_set_next_ne. }
  rewrite (store_next_ok _ _ _ _ Hnl1). unfold ret.
  set (m2 := set_next nl _ _).
  assert (nodes m2 !! nl = Some (Node.mk (Node.song nn) (Node.next pn))) as Hnl2.
  { unfold m2. by erewrite nodes_set_next_eq. }
  assert (∀ l, l ≠ nl -> l ≠ pl -> nodes m2 !! l = nodes m !! l) as Hfr.
  { intros l ? ?. unfold m2. by rewrite !nodes_set_next_ne. }
  assert (songs m2 = songs m) as Hsg.
  { unfold m2. by rewrite !songs_set_next. }
  exists m2, (Node.mk (Node.song pn) (Some nl)). split_and!; try done.
  - unfold m2. rewrite nodes_set_next_ne by done.
    by erewrite nodes_set_next_eq.
  - simpl. apply is_list_cons. split_and!; try done.
    + unfold m2. by rewrite !song_of_set_next.
    + eexists. split; [done|]. simpl.
      eapply is_list_frame; [|done|done].
      intros l Hl. apply Hfr; congruence.
  - unfold m2. by rewrite !dom_set_next.
  - auto.
Qed.

Lemma while_scan m (P : Song.t -> bool) (guarded : bool)
    (F K : list (loc * Song.t) -> option (list (loc * Song.t)))
    cond body (k : ptr * ptr -> M mem ptr) (N : nat) :
  (∀ prev l s, song_of m l = Some s -> cond (prev, Some l) m = Ok (P s, m)) ->
  (∀ prev, cond (prev, None) m = if guarded then Ok (false, m) else Fault) ->
  (∀ pl cl pn cn, nodes m !! pl = Some pn -> nodes m !! cl = Some cn ->
     body (Some pl, Some cl) m = Ok ((Node.next pn, Node.next cn), m)) ->
  (F [] = if guarded then K [] else None) ->
  (∀ y t, F (y :: t) = if P y.2 then cons y <$> F t else K (y :: t)) ->
  (∀ pl pn t, (length t < N)%nat -> scan_pre nl nn ns m pl pn t ->
     scan_post lst nl m pl pn t (K t) (k (Some pl, Node.next pn) m)) ->
  ∀ t pl pn fuel, (length t < N)%nat -> (length t < fuel)%nat ->
    scan_pre nl nn ns m pl pn t ->
    scan_post lst nl m pl pn t (F t)
      (bind (while fuel cond body (Some pl, Node.next pn)) k m).
Proof.
  intros Hcond Hnull Hbody HF0 HF1 Hk.
  induction t as [|y t IH]; intros pl pn fuel HN Hfuel Hpre;
    (destruct fuel as [|fuel]; [simpl in Hfuel; lia|]);
    pose proof Hpre as (Hpl & Ht & Hnl & Hns & Hne & Hnt & Hpt).
  - apply is_list_nil in Ht. unfold NULL in Ht. rewrite HF0.
    pose proof (Hk pl pn [] HN Hpre) as H. rewrite Ht in H |- *.
    cbn [while]. rewrite bind_assoc. unfold bind at 1. rewrite Hnull.
    destruct guarded; [|done]. exact H.
  - apply is_list_cons in Ht as (Hnx & Hys & yn & Hyn & Ht).
    rewrite HF1.
    pose proof (Hk pl pn (y :: t) HN Hpre) as H. rewrite Hnx in H |- *.
    cbn [while]. rewrite bind_assoc, (bind_Ok _ _ _ _ _ (Hcond _ _ _ Hys)).
    destruct (P y.2) eqn:HP; [|exact H].
    rewrite bind_assoc, (bind_Ok _ _ _ _ _ (Hbody _ _ _ _ Hpl Hyn)).
    assert (NoDup (y :: t).*1) as Hnd.
    { eapply is_list_NoDup, is_list_cons.
      split_and!; [done | done | by exists yn]. }
    rewrite fmap_cons in Hnd, Hnt, Hpt.
    apply NoDup_cons in Hnd as [Hyt _].
    apply not_elem_of_cons in Hnt as [Hny Hnt].
    apply not_elem_of_cons in Hpt as [Hpy Hpt].
    rewrite Hnx.
    specialize (IH y.1 yn fuel).
    destruct (F t) as [t'|];
      [change (cons y <$> Some t') with (Some (y :: t'))
      |change (cons y <$> @None (list (loc * Song.t))) with (@None (list (loc * Song.t)))];
      unfold scan_post in IH |- *.
    + destruct IH as (m' & yn' & Hrun & Hyn' & Hsy & Ht' & Hsg & Hdom & Hfr);
        [simpl in *; lia | simpl in *; lia | by split_and! |].
      exists m', pn. split_and!; try done.
      * rewrite Hfr; done.
      * rewrite Hnx. apply is_list_cons. split_and!; [done| |by exists yn'].
        apply song_of_Some in Hys as (n0 & sp & H1 & H2 & H3).
        unfold song_of. rewrite Hyn', Hsy, Hsg. simplify_eq. by rewrite H2.
      * intros l ? ? Hl. rewrite fmap_cons in Hl.
        apply not_elem_of_cons in Hl as [? ?]. by apply Hfr.
    + apply IH; [simpl in *; lia | simpl in *; lia | by split_and!].
Qed.
End Scan.

(** ** [add_inorder] computes [ins] *)

Ltac mstep :=
  first
    [ erewrite (bind_Ok (get_next _)) by (apply get_next_ok; eassumption)
    | erewrite (bind_Ok (get_comparator _)) by (apply get_comparator_ok; eassumption)
    | erewrite (bind_Ok (get_title _)) by (apply get_title_ok; eassumption)
    | erewrite (bind_Ok (get_artist _)) by (apply get_artist_ok; eassumption)
    | erewrite (bind_Ok (store_next _ _)) by (eapply store_next_ok; eassumption)
    | rewrite bind_ret ].

(** Linking a node in front of a list. *)
Lemma is_list_push m lst xs nl nn ns :
  is_list m lst xs -> nodes m !! nl = Some nn -> song_of m nl = Some ns ->
  nl ∉ xs.*1 ->
  is_list (set_next nl lst m) (Some nl) ((nl, ns) :: xs).
Proof.
  intros Hl Hn Hs Hnl. apply is_list_cons. simpl. split_and!; [done| |].
  - by rewrite song_of_set_next.
  - eexists. split; [by erewrite nodes_set_next_eq|]. simpl.
    eapply is_list_frame; [|apply songs_set_next|done].
    intros l Hin. apply nodes_set_next_ne. congruence.
Qed.

(** Linking a node behind a one-node list. *)
Lemma is_list_append1 m h hn nl nn ns :
  is_list m (Some h.1) [h] -> nodes m !! h.1 = Some hn ->
  nodes m !! nl = Some nn -> Node.next nn = NULL -> song_of m nl = Some ns ->
  nl ≠ h.1 ->
  is_list (set_next h.1 (Some nl) m) (Some h.1) [h; (nl, ns)].
Proof.
  intros (_ & Hhs & _)%is_list_cons Hhn Hn Hnx Hs Hne.
  apply is_list_cons. split_and!; [done|by rewrite song_of_set_next|].
  eexists. split; [by erewrite nodes_set_next_eq|]. simpl.
  apply is_list_cons. simpl. split_and!; [done|by rewrite song_of_set_next|].
  exists nn. split; [by rewrite nodes_set_next_ne|].
  by apply is_list_nil.
Qed.

Lemma scan_cond_ties m nl ns l s :
  song_of m nl = Some ns -> song_of m l = Some s ->
  (let* nc := get_comparator (Some nl) in
   let* cc := get_comparator (Some l) in
   if nc =? cc then
     let* nt := get_title (Some nl) in
     let* ct := get_title (Some l) in
     ret (strcmp nt ct <? 0)
   else ret false) m
  = Ok ((Song.comparator ns =? Song.comparator s)
        && (strcmp (Song.song ns) (Song.song s) <? 0), m).
Proof.
  intros Hn Hs. repeat mstep.
  destruct (_ =? _); [by repeat mstep | done].
Qed.

Lemma scan_body_ok m pl cl pn cn :
  nodes m !! pl = Some pn -> nodes m !! cl = Some cn ->
  (let* prev' := get_next (Some pl) in
   let* cur' := get_next (Some cl) in
   ret (prev', cur')) m = Ok ((Node.next pn, Node.next cn), m).
Proof. intros Hp Hc. by repeat mstep. Qed.

Lemma add_inorder_refines m lst xs nl nn ns fuel :
  is_list m lst xs ->
  nodes m !! nl = Some nn -> Node.next nn = NULL -> song_of m nl = Some ns ->
  nl ∉ xs.*1 ->
  ((2 <= length xs)%nat -> (length xs <= fuel)%nat) ->
  add_inorder_post m nl xs (ins snd (nl, ns) xs)
    (add_inorder fuel lst (Some nl) m).
Proof.
  intros Hl Hn Hnx Hs Hnl Hfuel.
  destruct xs as [|h [|h' t]].
  - apply is_list_nil in Hl as ->. exists m. split_and!; try done.
    apply is_list_cons. simpl. split_and!; [done|done|].
    exists nn. split; [done|]. by apply is_list_nil.
  - pose proof Hl as (-> & Hhs & hn & Hhn & Hhx%is_list_nil)%is_list_cons.
    unfold NULL in Hhx.
    assert (nl ≠ h.1) as Hne by set_solver.
    assert (add_inorder_post m nl [h] (Some [h; (nl, ns)])
              (Ok (Some h.1, set_next h.1 (Some nl) m))) as Happ.
    { eexists. split_and!; [done| | | |].
      - by eapply is_list_append1.
      - apply songs_set_next.
      - apply dom_set_next.
      - intros l _ Hl'. apply nodes_set_next_ne. set_solver. }
    assert (add_inorder_post m nl [h] (Some [(nl, ns); h])
              (Ok (Some nl, set_next nl (Some h.1) m))) as Hpush.
    { eexists. split_and!; [done| | | |].
      - by eapply is_list_push.
      - apply songs_set_next.
      - apply dom_set_next.
      - intros l Hl' _. by apply nodes_set_next_ne. }
    unfold add_inorder, ins, cmp. simpl snd. repeat mstep. rewrite Hhx.
    cbv beta iota. repeat mstep.
    destruct (_ >? _); [by repeat mstep|]. repeat mstep.
    destruct (_ <? _); [by repeat mstep|]. repeat mstep.
    destruct (_ <? _); by repeat mstep.
  - pose proof Hl as (-> & Hhs & hn & Hhn & Ht)%is_list_cons.
    pose proof Ht as (Hhx & _)%is_list_cons.
    assert (nl ≠ h.1) as Hne by set_solver.
    assert (add_inorder_post m nl (h :: h' :: t) (Some ((nl, ns) :: h :: h' :: t))
              (Ok (Some nl, set_next nl (Some h.1) m))) as Hpush.
    { eexists. split_and!; [done| | | |].
      - by eapply is_list_push.
      - apply songs_set_next.
      - apply dom_set_next.
      - intros l Hl' _. by apply nodes_set_next_ne. }
    assert (scan_pre nl nn ns m h.1 hn (h' :: t)) as Hpre.
    { apply is_list_NoDup in Hl. rewrite fmap_cons in Hl, Hnl.
      apply NoDup_cons in Hl as [? _].
      apply not_elem_of_cons in Hnl as [? ?]. by split_and!. }
    assert (∀ r out, scan_post (Some h.1) nl m h.1 hn (h' :: t) r out ->
                 add_inorder_post m nl (h :: h' :: t) (cons h <$> r) out)
      as Hpost.
    { intros [r|] out; [|done].
      intros (m' & hn' & Hrun & Hhn' & Hsg' & Hr & Hsongs & Hdom & Hfr).
      exists m'. split_and!; try done.
      - apply is_list_cons. split_and!; [done| |by exists hn'].
        apply song_of_Some in Hhs as (n0 & sp & H1 & H2 & H3).
        unfold song_of. rewrite Hhn', Hsg', Hsongs. simplify_eq. by rewrite H2.
      - intros l ? Hl'. rewrite fmap_cons in Hl'.
        apply not_elem_of_cons in Hl' as [? ?]. by apply Hfr. }
    assert (length (h' :: t) < fuel)%nat as Hlen by (simpl in *; lia).
    unfold add_inorder, ins, cmp, title. simpl snd. repeat mstep. rewrite Hhx.
    cbv beta iota. repeat mstep.
    destruct (_ >? _); [by repeat mstep|]. repeat mstep.
    destruct (_ =? _).
    + repeat mstep. destruct (_ >? _); [by repeat mstep|].
      apply Hpost. unfold scan_ties_head.
      eapply (while_scan (Some h.1) nl nn ns m _ false
                (ins_ties_head snd (nl, ns)) (fun t => Some ((nl, ns) :: t))
                _ _ _ fuel); try done.
      * intros _ l s Hls. by apply scan_cond_ties.
      * intros _. by repeat mstep.
      * intros. by apply scan_body_ok.
      * intros y t0. simpl. by destruct (tie_before _ _ _) eqn:E;
          unfold tie_before, cmp, title in E; simpl in E; rewrite E.
      * intros pl pn t0 _ Hpre0. by eapply link_post.
    + apply (Hpost (Some (ins_greater snd (nl, ns) (h' :: t)))).
      unfold scan_greater.
      eapply (while_scan (Some h.1) nl nn ns m
                (fun s => Song.comparator ns <? Song.comparator s) true
                (fun t => Some (ins_greater snd (nl, ns) t))
                (fun t => Some (ins_ties snd (nl, ns) t))
                _ _ _ fuel); try done.
      * intros _ l s Hls. by repeat mstep.
      * intros pl cl pn cn Hp Hc. by repeat mstep.
      * intros y t0. simpl. unfold cmp. simpl. by destruct (_ <? _).
      * intros pl pn t0 Hlen0 Hpre0. unfold scan_ties.
        eapply (while_scan (Some h.1) nl nn ns m _ true
                  (fun t => Some (ins_ties snd (nl, ns) t))
                  (fun t => Some ((nl, ns) :: t))
                  _ _ _ fuel); try done.
        ** intros _ l s Hls. by apply scan_cond_ties.
        ** intros. by apply scan_body_ok.
        ** intros y t1. simpl. by destruct (tie_before _ _ _) eqn:E;
            unfold tie_before, cmp, title in E; simpl in E; rewrite E.
        ** intros pl0 pn0 t1 _ Hpre1. by eapply link_post.
Qed.

(** ** Sequences of insertions *)

Lemma new_node_spec m sp s lst xs :
  songs m !! sp = Some s -> is_list m lst xs ->
  ∃ nl m1, new_node (Some sp) m = Ok (Some nl, m1) ∧
    nodes m1 !! nl = Some (Node.mk (Some sp) NULL) ∧
    song_of m1 nl = Some s ∧ (nl ∉ xs.*1) ∧ is_list m1 lst xs ∧
    songs m1 = songs m.
Proof.
  intros Hsp Hl. set (nl := fresh (dom (nodes m))).
  assert (nl ∉ dom (nodes m)) as Hfresh by apply is_fresh.
  assert (nl ∉ xs.*1) as Hnl.
  { intros Hin. by apply Hfresh, (is_list_allocated _ _ _ _ Hl). }
  exists nl, (Mem (songs m) (<[nl := Node.mk (Some sp) NULL]> (nodes m))).
  split_and!.
  - reflexivity.
  - cbn [nodes]. apply lookup_insert_eq.
  - unfold song_of. cbn [nodes songs]. rewrite lookup_insert_eq. exact Hsp.
  - done.
  - apply (is_list_frame m); [|done|done]. intros l Hin. cbn [nodes].
    apply lookup_insert_ne. congruence.
  - done.
Qed.

Lemma ins_ties_fmap {A B} (f : A -> B) sa sb x t :
  (∀ y, sb (f y) = sa y) ->
  f <$> ins_ties sa x t = ins_ties sb (f x) (f <$> t).
Proof.
  intros Hf. induction t as [|y t IH]; csimpl; [done|].
  unfold tie_before, cmp, title. rewrite !Hf.
  destruct (_ && _); csimpl; by rewrite ?IH.
Qed.

Lemma ins_ties_head_fmap {A B} (f : A -> B) sa sb x t :
  (∀ y, sb (f y) = sa y) ->
  (fmap f : list A -> list B) <$> ins_ties_head sa x t
  = ins_ties_head sb (f x) (f <$> t).
Proof.
  intros Hf. induction t as [|y t IH]; csimpl; [done|].
  unfold tie_before, cmp, title. rewrite !Hf.
  destruct (_ && _); csimpl; [|done]. rewrite <- IH.
  by destruct (ins_ties_head sa x t).
Qed.

Lemma ins_greater_fmap {A B} (f : A -> B) sa sb x t :
  (∀ y, sb (f y) = sa y) ->
  f <$> ins_greater sa x t = ins_greater sb (f x) (f <$> t).
Proof.
  intros Hf. induction t as [|y t IH]; csimpl; [done|].
  unfold cmp. rewrite !Hf. destruct (_ <? _); csimpl; [by rewrite IH|].
  apply (ins_ties_fmap f sa sb x (y :: t) Hf).
Qed.

Lemma ins_fmap {A B} (f : A -> B) sa sb x xs :
  (∀ y, sb (f y) = sa y) ->
  (fmap f : list A -> list B) <$> ins sa x xs = ins sb (f x) (f <$> xs).
Proof.
  intros Hf. destruct xs as [|h [|h' t]]; unfold ins, cmp, title;
    rewrite ?fmap_cons, ?fmap_nil, ?Hf.
  - done.
  - by repeat case_match.
  - destruct (_ >? _); [done|]. destruct (_ =? _).
    + destruct (_ >? _); [done|].
      rewrite <- !fmap_cons.
      rewrite <- (ins_ties_head_fmap f sa sb x (h' :: t)) by done.
      by destruct (ins_ties_head sa x (h' :: t)).
    + rewrite <- !fmap_cons.
      by rewrite <- (ins_greater_fmap f sa sb x (h' :: t)).
Qed.

Lemma insert_all_refines sps : ∀ ss m lst xs fuel,
  Forall2 (fun sp s => songs m !! sp = Some s) sps ss ->
  is_list m lst xs ->
  (length xs + length sps <= fuel)%nat ->
  match ins_all id ss (xs.*2) with
  | Some r =>
      ∃ p m' xs', insert_all fuel (Some <$> sps) lst m = Ok (p, m') ∧
        is_list m' p xs' ∧ xs'.*2 = r
  | None => insert_all fuel (Some <$> sps) lst m = Fault
  end.
Proof.
  induction sps as [|sp sps IH]; intros ss m lst xs fuel Hss Hl Hfuel.
  - apply Forall2_nil_inv_l in Hss as ->. simpl. by exists lst, m, xs.
  - apply Forall2_cons_inv_l in Hss as (s & ss' & Hsp & Hss & ->).
    destruct (new_node_spec m sp s lst xs Hsp Hl)
      as (nl & m1 & Hnew & Hnl & Hs & Hfresh & Hl1 & Hsg1).
    cbn [fmap list_fmap insert_all ins_all].
    rewrite (bind_Ok _ _ _ _ _ Hnew).
    pose proof (add_inorder_refines m1 lst xs nl _ s fuel Hl1 Hnl eq_refl Hs Hfresh)
      as Hadd.
    pose proof (ins_fmap snd snd id (nl, s) xs (fun _ => eq_refl)) as Hfm.
    cbn [snd] in Hfm. rewrite <- Hfm. clear Hfm.
    destruct (ins snd (nl, s) xs) as [xs1|] eqn:Hins; simpl in Hadd |- *.
    + destruct Hadd as (m2 & Hrun & Hl2 & Hsg2 & _); [simpl in *; lia|].
      rewrite (bind_Ok _ _ _ _ _ Hrun).
      apply (IH ss' m2 _ xs1 fuel); [|done|].
      * rewrite Hsg2, Hsg1. done.
      * apply ins_inserted, inserted_length in Hins. simpl in *. lia.
    + unfold bind. rewrite Hadd; [done | simpl in *; lia].
Qed.

(** ** [add_end], [add_front], [remove_front] on chains *)

Lemma chain_push m lst ls nl nn :
  chain m lst ls -> nodes m !! nl = Some nn -> nl ∉ ls ->
  chain (set_next nl lst m) (Some nl) (nl :: ls).
Proof.
  intros Hc Hn Hnl. split; [done|]. eexists.
  split; [by erewrite nodes_set_next_eq|]. simpl.
  eapply chain_frame; [|done]. intros l Hin. apply nodes_set_next_ne. congruence.
Qed.

Lemma add_end_walk (lst0 : ptr) nl nn ls : ∀ l fuel m,
  chain m (Some l) (l :: ls) -> nodes m !! nl = Some nn -> nl ∉ l :: ls ->
  (length (l :: ls) <= fuel)%nat ->
  ∃ m', (let* curr := last_node fuel (Some l) in
         store_next curr (Some nl) ;;; store_next (Some nl) NULL ;;; ret lst0) m
        = Ok (lst0, m') ∧
    chain m' (Some l) (l :: ls ++ [nl]) ∧
    nodes m' !! nl = Some (Node.mk (Node.song nn) NULL) ∧
    songs m' = songs m ∧
    ∀ l', l' ≠ nl -> l' ∉ l :: ls -> nodes m' !! l' = nodes m !! l'.
Proof.
  induction ls as [|l2 ls IH]; intros l fuel m Hc Hn Hnl Hfuel;
    (destruct fuel as [|fuel]; [simpl in Hfuel; lia|]);
    destruct Hc as (_ & n & Hl & Hc); unfold last_node; cbn [while];
    rewrite !bind_assoc; mstep; rewrite bind_ret.
  - simpl in Hc. unfold NULL in Hc. rewrite Hc.
    rewrite bool_decide_false by (by intros []). rewrite bind_ret.
    apply not_elem_of_cons in Hnl as [Hne _].
    assert (nodes (set_next l (Some nl) m) !! nl = Some nn) as Hn1.
    { by rewrite nodes_set_next_ne. }
    repeat mstep. eexists. split; [done|]. split_and!.
    + split; [done|]. eexists. split.
      { rewrite nodes_set_next_ne by done. by erewrite nodes_set_next_eq. }
      simpl. split; [done|]. eexists. split; [by erewrite nodes_set_next_eq|].
      done.
    + by erewrite nodes_set_next_eq.
    + by rewrite !songs_set_next.
    + intros l' ? Hl'. apply not_elem_of_cons in Hl' as [? _].
      by rewrite !nodes_set_next_ne.
  - pose proof Hc as (Hnx & _). rewrite Hnx.
    rewrite bool_decide_true by done. rewrite bind_assoc.
    mstep. rewrite Hnx.
    assert (NoDup (l :: l2 :: ls)) as Hnd.
    { apply (chain_NoDup m (Some l)). split; [done|]. by exists n. }
    apply NoDup_cons in Hnd as [Hl2 _].
    apply not_elem_of_cons in Hnl as [Hne Hnl].
    rewrite Hnx in Hc.
    destruct (IH l2 fuel m) as (m' & Hrun & Hc' & Hn' & Hsg & Hfr);
      [done | done | done | simpl in *; lia |].
    exists m'. unfold last_node in Hrun. split_and!; try done.
    + split; [done|]. exists n. split; [by rewrite Hfr|]. by rewrite Hnx.
    + intros l' ? Hl'. apply not_elem_of_cons in Hl' as [? ?]. by apply Hfr.
Qed.

Lemma chain_links m m' p ls :
  (∀ l, Node.next <$> nodes m' !! l = Node.next <$> nodes m !! l) ->
  chain m p ls -> chain m' p ls.
Proof.
  intros Hlk. revert p; induction ls as [|l ls IH]; intros p; simpl; [done|].
  intros (-> & n & Hn & Hc). split; [done|].
  specialize (Hlk l). rewrite Hn in Hlk.
  destruct (nodes m' !! l) as [n'|]; [|done]. injection Hlk as Hlk.
  exists n'. split; [done|]. rewrite Hlk. by apply IH.
Qed.

(** ** Reading a list back *)

Lemma traverse_is_list fuel : ∀ m p xs, traverse fuel m p = Some xs -> is_list m p xs.
Proof.
  induction fuel as [|fuel IH]; intros m [l|] xs; cbn [traverse];
    try (intros [= <-]; by apply is_list_nil); try done.
  destruct (nodes m !! l) as [n|] eqn:Hn; [|done].
  destruct (song_of m l) as [s|] eqn:Hs; [|done].
  destruct (traverse fuel m (Node.next n)) as [xs'|] eqn:Ht; [|done].
  intros [= <-]. apply is_list_cons. split_and!; [done|done|].
  exists n. split; [done|]. by apply IH.
Qed.

Lemma is_list_functional m p xs ys : is_list m p xs -> is_list m p ys -> xs = ys.
Proof.
  revert p ys; induction xs as [|x xs IH]; intros p [|y ys].
  - done.
  - by intros ->%is_list_nil (? & _)%is_list_cons.
  - by intros (-> & _)%is_list_cons ?%is_list_nil.
  - intros (-> & Hx & n & Hn & Hxs)%is_list_cons
           ([= Hxy] & Hy & n' & Hn' & Hys)%is_list_cons.
    rewrite <- Hxy in Hy, Hn'. simplify_eq.
    f_equal; [|by eapply IH]. destruct x, y; simpl in *; congruence.
Qed.

(** ** Sequences of insertions keep the order *)

Section InsAll.
Context {A : Type} (sg : A -> Song.t).

Lemma ins_all_cmp_sorted xs : ∀ acc r,
  Sorted (cmp_desc sg) acc -> ins_all sg xs acc = Some r ->
  Sorted (cmp_desc sg) r.
Proof.
  induction xs as [|x xs IH]; intros acc r Hs; simpl.
  - by intros [= <-].
  - destruct (ins sg x acc) as [acc'|] eqn:E; [|done].
    apply IH. by eapply cmp_desc_ins_sorted.
Qed.

Lemma ins_all_song_sorted xs : ∀ acc r,
  (2 <= length acc)%nat ->
  Sorted (song_desc sg) acc -> ins_all sg xs acc = Some r ->
  Sorted (song_desc sg) r.
Proof.
  induction xs as [|x xs IH]; intros acc r Hlen Hs; simpl.
  - by intros [= <-].
  - destruct (ins sg x acc) as [acc'|] eqn:E; [|done].
    apply IH; [|by eapply song_desc_ins_sorted].
    apply ins_inserted, inserted_length in E. lia.
Qed.

(** [ins] gives no result only on a list whose comparators all equal the
    new one. *)
Lemma ins_None_all_tied x acc :
  ins sg x acc = None -> Forall (fun y => cmp sg y = cmp sg x) acc.
Proof.
  destruct acc as [|h [|h' t]]; unfold ins; cbv beta iota.
  - done.
  - by repeat case_match.
  - destruct (_ >? _); [done|].
    destruct (Z.eqb_spec (cmp sg x) (cmp sg h)) as [E|_]; [|done].
    destruct (_ >? _); [done|].
    destruct (ins_ties_head sg x (h' :: t)) as [r|] eqn:Hr; [done|]. intros _.
    apply ins_ties_head_None in Hr. constructor; [done|].
    eapply Forall_impl; [done|]. intros y Hy%tie_before_true. by destruct Hy.
Qed.

(** Once a list holds two comparators, every further insertion returns. *)
Lemma ins_all_mixed_is_Some xs : ∀ acc a b,
  a ∈ acc -> b ∈ acc -> cmp sg a ≠ cmp sg b ->
  is_Some (ins_all sg xs acc).
Proof.
  induction xs as [|x xs IH]; intros acc a b Ha Hb Hab; simpl; [by eexists|].
  destruct (ins sg x acc) as [acc'|] eqn:E.
  - pose proof (inserted_Permutation _ _ _ (ins_inserted _ _ _ _ E)) as Hp.
    apply (IH acc' a b); [| |done]; rewrite Hp; by right.
  - apply ins_None_all_tied in E. rewrite Forall_forall in E.
    pose proof (E a Ha). pose proof (E b Hb). congruence.
Qed.
End InsAll.

Lemma ins_all_song_sorted_nil ss r :
  no_artist_tie ss -> ins_all id ss [] = Some r -> Sorted (song_desc id) r.
Proof.
  destruct ss as [|s1 [|s2 ss]]; simpl.
  - intros _ [= <-]. constructor.
  - intros _ [= <-]. repeat constructor.
  - intros Hne. unfold cmp, id.
    destruct (Z.gtb_spec (Song.comparator s1) (Song.comparator s2));
      [|destruct (Z.ltb_spec (Song.comparator s1) (Song.comparator s2)); [|lia]];
      apply ins_all_song_sorted; simpl; try lia;
      repeat constructor; unfold song_desc, cmp, id; lia.
Qed.

Lemma ins_all_no_artist_tie_is_Some ss :
  no_artist_tie ss -> is_Some (ins_all id ss []).
Proof.
  destruct ss as [|s1 [|s2 ss]]; [by eexists | by eexists |].
  intros Hne. cbn [ins_all]. unfold ins at 2. cbv beta iota.
  unfold ins, cmp, id. cbv beta iota.
  destruct (Z.gtb_spec (Song.comparator s1) (Song.comparator s2));
    [|destruct (Z.ltb_spec (Song.comparator s1) (Song.comparator s2));
      [|simpl in Hne; lia]];
    apply (ins_all_mixed_is_Some id ss _ s1 s2); try done;
    rewrite !elem_of_cons; auto.
Qed.

(** * The claims *)

(** C1 (as the code has it).  For every sequence of [add_inorder]
    insertions of fresh nodes into the empty list whose first two songs
    differ in comparator (so that the one-node branch decides by
    comparator, not by artist), every call returns, and the resulting chain,
    read from head to tail, holds exactly the inserted songs, sorted by
    comparator descending and, among nodes of equal comparator, by song
    title descending. *)
Theorem add_inorder_sequence_order (m0 : mem) (sps : list loc)
    (ss : list Song.t) (fuel : nat) :
  Forall2 (fun sp s => songs m0 !! sp = Some s) sps ss ->
  (length sps <= fuel)%nat ->
  no_artist_tie ss ->
  ∃ p m' xs,
    insert_all fuel (Some <$> sps) NULL m0 = Ok (p, m') ∧
    is_list m' p xs ∧ xs.*2 ≡ₚ ss ∧
    StronglySorted (cmp_desc id) (xs.*2) ∧
    StronglySorted (song_desc id) (xs.*2).
Proof.
  intros Hss Hfuel Hne.
  pose proof (insert_all_refines sps ss m0 NULL [] fuel Hss) as Href.
  specialize (Href (proj2 (is_list_nil m0 NULL) eq_refl) Hfuel).
  change ([].*2) with (@nil Song.t) in Href.
  destruct (ins_all_no_artist_tie_is_Some ss Hne) as [r Hr]. rewrite Hr in Href.
  destruct Href as (p & m' & xs & Hrun & Hl & <-).
  exists p, m', xs. split_and!.
  - done.
  - done.
  - rewrite (ins_all_Permutation _ _ _ _ Hr), app_nil_r.
    apply reverse_Permutation.
  - apply Sorted_StronglySorted; [apply cmp_desc_trans|].
    eapply ins_all_cmp_sorted; [|done]. constructor.
  - apply Sorted_StronglySorted; [apply song_desc_trans|].
    by eapply ins_all_song_sorted_nil.
Qed.

Lemma add_inorder_sequence_order_witness :
  ∃ p m' xs,
    insert_all 4 (Some <$> refs_of plain_scenario) NULL
      (mem_of_songs plain_scenario) = Ok (p, m') ∧
    is_list m' p xs ∧ xs.*2 ≡ₚ plain_scenario ∧
    StronglySorted (cmp_desc id) (xs.*2) ∧
    StronglySorted (song_desc id) (xs.*2).
Proof.
  apply (add_inorder_sequence_order (mem_of_songs plain_scenario)
           (refs_of plain_scenario) plain_scenario 4).
  - repeat constructor.
  - simpl. lia.
  - simpl. discriminate.
Defined.

(** C1 (as stated) fails: after inserting comparators 5, 3 ("B"), 3 ("A")
    the chain is 5, "B", "A", which is not title-ascending. *)
Lemma add_inorder_title_ascending_fails :
  ¬ ∃ p m' xs,
      insert_all 3 (Some <$> refs_of short_scenario) NULL
        (mem_of_songs short_scenario) = Ok (p, m') ∧
      is_list m' p xs ∧ Sorted (song_asc_title id) (xs.*2).
Proof.
  intros (p & m' & xs & Hrun & Hl & Hs).
  assert (match insert_all 3 (Some <$> refs_of short_scenario) NULL
                  (mem_of_songs short_scenario) with
          | Ok (p, m') => traverse 3 m' p
          | _ => None
          end = Some (zip [1; 2; 3]%positive short_scenario)) as Ht
    by (vm_compute; reflexivity).
  rewrite Hrun in Ht. apply traverse_is_list in Ht.
  rewrite (is_list_functional _ _ _ _ Hl Ht) in Hs.
  apply Sorted_inv in Hs as [Hs _]. apply Sorted_inv in Hs as [_ Hs].
  apply HdRel_inv in Hs. vm_compute in Hs.
  destruct Hs as [Hs|[_ Hs]]; [discriminate | by apply Hs].
Qed.

(** C2.  The scan of lines 131-134 has no test of [cur] against [NULL]:
    on a list of two nodes or more whose comparators all equal the new
    node's, when the new title is not above the head's and is below every
    other title, [add_inorder] reads through [NULL] and does not return. *)
Theorem add_inorder_faults_when_new_sorts_last m lst h t nl nn ns fuel :
  is_list m lst (h :: t) ->
  nodes m !! nl = Some nn -> Node.next nn = NULL -> song_of m nl = Some ns ->
  nl ∉ (h :: t).*1 ->
  (length (h :: t) <= fuel)%nat ->
  t ≠ [] ->
  Song.comparator ns = Song.comparator h.2 ->
  strcmp (Song.song ns) (Song.song h.2) <= 0 ->
  Forall (fun y => Song.comparator ns = Song.comparator y.2 ∧
                   strcmp (Song.song ns) (Song.song y.2) < 0) t ->
  add_inorder fuel lst (Some nl) m = Fault.
Proof.
  intros Hl Hn Hnx Hs Hnl Hfuel Ht Hc Hti Hall.
  pose proof (add_inorder_refines m lst (h :: t) nl nn ns fuel
                Hl Hn Hnx Hs Hnl (fun _ => Hfuel)) as Href.
  destruct t as [|h' t]; [done|].
  unfold ins, cmp, title in Href. simpl snd in Href.
  replace (Song.comparator ns >? Song.comparator h.2) with false in Href
    by (symmetry; rewrite Z.gtb_ltb; apply Z.ltb_ge; lia).
  replace (Song.comparator ns =? Song.comparator h.2) with true in Href
    by (symmetry; apply Z.eqb_eq; lia).
  replace (strcmp (Song.song ns) (Song.song h.2) >? 0) with false in Href
    by (symmetry; rewrite Z.gtb_ltb; apply Z.ltb_ge; lia).
  assert (ins_ties_head snd (nl, ns) (h' :: t) = None) as E.
  { apply ins_ties_head_None. eapply Forall_impl; [done|].
    intros y [? ?]. by apply tie_before_true. }
  rewrite E in Href. exact Href.
Qed.

Lemma add_inorder_faults_when_new_sorts_last_witness :
  add_inorder 2 (Some 1%positive) (Some 3%positive) (mem_of_chain tie_songs 2)
  = Fault.
Proof.
  apply (add_inorder_faults_when_new_sorts_last
           (mem_of_chain tie_songs 2) (Some 1%positive)
           (1%positive, Song.mk "p" "C" 3)
           [(2%positive, Song.mk "q" "B" 3)]
           3%positive (Node.mk (Some 3%positive) NULL) (Song.mk "r" "A" 3) 2).
  - by apply (traverse_is_list 2).
  - reflexivity.
  - reflexivity.
  - reflexivity.
  - apply (bool_decide_unpack _). by vm_compute.
  - simpl. lia.
  - discriminate.
  - reflexivity.
  - by vm_compute.
  - repeat constructor.
Defined.

(** C3 (as the code has it).  Inserting comparators 5, 3 (title "B"), 8,
    3 (title "A") in that order into the empty list gives the traversal
    order 8, 5, 3 "B", 3 "A", whatever the artists and the other two
    titles are. *)
Theorem add_inorder_scenario_order (a1 a2 a3 a4 t5 t8 : string) :
  ∃ p m' xs,
    insert_all 4 (Some <$> refs_of (scenario_songs a1 a2 a3 a4 t5 t8)) NULL
      (mem_of_songs (scenario_songs a1 a2 a3 a4 t5 t8)) = Ok (p, m') ∧
    is_list m' p xs ∧
    xs.*2 = [ Song.mk a3 t8 8; Song.mk a1 t5 5; Song.mk a2 "B" 3; Song.mk a4 "A" 3 ].
Proof.
  assert (match insert_all 4 (Some <$> refs_of (scenario_songs a1 a2 a3 a4 t5 t8))
                  NULL (mem_of_songs (scenario_songs a1 a2 a3 a4 t5 t8)) with
          | Ok (p, m') => traverse 4 m' p
          | _ => None
          end
          = Some [ (3%positive, Song.mk a3 t8 8); (1%positive, Song.mk a1 t5 5);
                   (2%positive, Song.mk a2 "B" 3); (4%positive, Song.mk a4 "A" 3) ])
    as Ht by (vm_compute; reflexivity).
  destruct (insert_all _ _ _ _) as [[p m']| |]; [|done|done].
  eexists p, m', _. split; [done|]. split; [by apply (traverse_is_list 4)|done].
Qed.

(** C3 (as stated) fails: the two comparator-3 nodes do not end up in the
    order "A" then "B". *)
Lemma add_inorder_scenario_not_A_then_B :
  ¬ ∃ p m' xs,
      insert_all 4 (Some <$> refs_of plain_scenario) NULL
        (mem_of_songs plain_scenario) = Ok (p, m') ∧
      is_list m' p xs ∧
      Song.comparator <$> xs.*2 = [8; 5; 3; 3] ∧
      Song.song <$> drop 2 (xs.*2) = ["A"; "B"]%string.
Proof.
  intros (p & m' & xs & Hrun & Hl & _ & Hs).
  assert (match insert_all 4 (Some <$> refs_of plain_scenario) NULL
                  (mem_of_songs plain_scenario) with
          | Ok (p, m') => traverse 4 m' p
          | _ => None
          end = Some (zip [3; 1; 2; 4]%positive
                        [ Song.mk "r" "Eight" 8; Song.mk "p" "Five" 5;
                          Song.mk "q" "B" 3; Song.mk "s" "A" 3 ])) as Ht
    by (vm_compute; reflexivity).
  rewrite Hrun in Ht. apply traverse_is_list in Ht.
  rewrite (is_list_functional _ _ _ _ Hl Ht) in Hs. discriminate Hs.
Qed.

(** C4 (as the code has it).  On a list that is empty or has two nodes or
    more, all of the new node's comparator and sorted by title descending,
    a new node whose title is not below the last node's is inserted at a
    position that keeps the chain sorted (comparator descending, title
    descending among equal comparators); the other nodes keep their order. *)
Theorem add_inorder_all_ties m lst xs nl nn ns fuel :
  is_list m lst xs ->
  nodes m !! nl = Some nn -> Node.next nn = NULL -> song_of m nl = Some ns ->
  nl ∉ xs.*1 ->
  (length xs <= fuel)%nat ->
  length xs ≠ 1%nat ->
  Forall (fun y => Song.comparator y.2 = Song.comparator ns) xs ->
  Sorted (song_desc snd) xs ->
  (∀ y, last xs = Some y -> strcmp (Song.song ns) (Song.song y.2) >= 0) ->
  ∃ m' xs',
    add_inorder fuel lst (Some nl) m = Ok (head_ptr xs', m') ∧
    is_list m' (head_ptr xs') xs' ∧
    inserted (nl, ns) xs xs' ∧
    StronglySorted (song_desc snd) xs'.
Proof.
  intros Hl Hn Hnx Hs Hnl Hfuel Hlen Hall Hsorted Hlast.
  pose proof (add_inorder_refines m lst xs nl nn ns fuel
                Hl Hn Hnx Hs Hnl (fun _ => Hfuel)) as Href.
  destruct (ins snd (nl, ns) xs) as [xs'|] eqn:Hins.
  - destruct Href as (m' & Hrun & Hl' & _). exists m', xs'. split_and!; try done.
    + by apply ins_inserted in Hins.
    + apply Sorted_StronglySorted; [apply song_desc_trans|].
      destruct xs as [|h [|h' t]]; [|done|].
      * injection Hins as <-. repeat constructor.
      * eapply song_desc_ins_sorted; [|done|done]. simpl. lia.
  - exfalso. destruct xs as [|h [|h' t]]; [done | by simpl in Hlen |].
    revert Hins. unfold ins. destruct (_ >? _); [done|].
    destruct (_ =? _); [|done]. destruct (_ >? _); [done|].
    destruct (ins_ties_head snd (nl, ns) (h' :: t)) eqn:E; [done|]. intros _.
    apply ins_ties_head_None in E.
    destruct (last (h' :: t)) as [y|] eqn:Hy; [|by apply last_None in Hy].
    pose proof (Hlast y) as Hge. rewrite last_cons, Hy in Hge.
    specialize (Hge eq_refl).
    apply last_Some_elem_of in Hy.
    rewrite Forall_forall in E. apply E, tie_before_true in Hy as [_ Hlt].
    unfold title in Hlt. simpl in Hlt. lia.
Qed.

Lemma add_inorder_all_ties_witness :
  ∃ m' xs',
    add_inorder 2 (Some 1%positive) (Some 3%positive) (mem_of_chain desc_tie_songs 2)
      = Ok (head_ptr xs', m') ∧
    is_list m' (head_ptr xs') xs' ∧
    inserted (3%positive, Song.mk "r" "B" 3)
      [(1%positive, Song.mk "p" "C" 3); (2%positive, Song.mk "q" "A" 3)] xs' ∧
    StronglySorted (song_desc snd) xs'.
Proof.
  apply (add_inorder_all_ties (mem_of_chain desc_tie_songs 2) (Some 1%positive)
           [(1%positive, Song.mk "p" "C" 3); (2%positive, Song.mk "q" "A" 3)]
           3%positive (Node.mk (Some 3%positive) NULL) (Song.mk "r" "B" 3) 2).
  - by apply (traverse_is_list 2).
  - reflexivity.
  - reflexivity.
  - reflexivity.
  - apply (bool_decide_unpack _). by vm_compute.
  - simpl. lia.
  - simpl. lia.
  - repeat constructor.
  - apply Sorted_cons; [repeat constructor|].
    apply HdRel_cons. right. by vm_compute.
  - intros y [= <-]. by vm_compute.
Defined.

(** C4 (as stated) fails: into the title-ascending list "A", "C" of
    comparator 3, the node "B" of comparator 3 goes to the front. *)
Lemma add_inorder_all_ties_not_ascending :
  ¬ ∃ p m' xs',
      add_inorder 2 (Some 1%positive) (Some 3%positive)
        (mem_of_chain asc_tie_songs 2) = Ok (p, m') ∧
      is_list m' p xs' ∧ Sorted (song_asc_title snd) xs'.
Proof.
  intros (p & m' & xs' & Hrun & Hl & Hs).
  assert (match add_inorder 2 (Some 1%positive) (Some 3%positive)
                  (mem_of_chain asc_tie_songs 2) with
          | Ok (p, m') => traverse 3 m' p
          | _ => None
          end = Some [ (3%positive, Song.mk "r" "B" 3);
                       (1%positive, Song.mk "p" "A" 3);
                       (2%positive, Song.mk "q" "C" 3) ]) as Ht
    by (vm_compute; reflexivity).
  rewrite Hrun in Ht. apply traverse_is_list in Ht.
  rewrite (is_list_functional _ _ _ _ Hl Ht) in Hs.
  apply Sorted_inv in Hs as [_ Hs]. apply HdRel_inv in Hs. vm_compute in Hs.
  destruct Hs as [Hs|[_ Hs]]; [discriminate | by apply Hs].
Qed.

(** C5.  On a one-node list, when the new node's comparator equals the
    sole node's, the artists decide: if the existing artist compares less
    than the new artist, the existing node stays first and the new node
    follows it; otherwise the new node becomes the head.  The titles play
    no part. *)
Theorem add_inorder_single_tie_by_artist m l ls nl nn ns fuel :
  is_list m (Some l) [(l, ls)] ->
  nodes m !! nl = Some nn -> Node.next nn = NULL -> song_of m nl = Some ns ->
  nl ≠ l ->
  Song.comparator ns = Song.comparator ls ->
  ∃ m',
    add_inorder fuel (Some l) (Some nl) m
      = Ok (if strcmp (Song.artist ls) (Song.artist ns) <? 0
            then Some l else Some nl, m') ∧
    is_list m'
      (if strcmp (Song.artist ls) (Song.artist ns) <? 0 then Some l else Some nl)
      (if strcmp (Song.artist ls) (Song.artist ns) <? 0
       then [(l, ls); (nl, ns)] else [(nl, ns); (l, ls)]).
Proof.
  intros Hl Hn Hnx Hs Hne Hc.
  assert (nl ∉ [(l, ls)].*1) as Hnl by (by intros ?%list_elem_of_singleton).
  pose proof (add_inorder_refines m (Some l) [(l, ls)] nl nn ns fuel
                Hl Hn Hnx Hs Hnl) as Href.
  unfold ins, cmp in Href. simpl snd in Href. rewrite Hc in Href.
  replace (Song.comparator ls >? Song.comparator ls) with false in Href
    by (symmetry; rewrite Z.gtb_ltb; apply Z.ltb_ge; lia).
  rewrite Z.ltb_irrefl in Href.
  destruct (strcmp (Song.artist ls) (Song.artist ns) <? 0);
    (destruct Href as (m' & Hrun & Hl' & _); [simpl; lia|]); by exists m'.
Qed.

Lemma add_inorder_single_tie_by_artist_witness :
  ∃ m',
    add_inorder 0 (Some 1%positive) (Some 2%positive) (mem_of_chain tie_songs 1)
      = Ok (Some 1%positive, m') ∧
    is_list m' (Some 1%positive)
      [(1%positive, Song.mk "p" "C" 3); (2%positive, Song.mk "q" "B" 3)].
Proof.
  apply (add_inorder_single_tie_by_artist (mem_of_chain tie_songs 1)
           1%positive (Song.mk "p" "C" 3)
           2%positive (Node.mk (Some 2%positive) NULL) (Song.mk "q" "B" 3) 0).
  - by apply (traverse_is_list 1).
  - reflexivity.
  - reflexivity.
  - reflexivity.
  - discriminate.
  - reflexivity.
Defined.

(** C6.  [remove_front] after [add_front] of a fresh node gives back the
    original head, and the chain from it is the original one, node for
    node: only the fresh node's link was written. *)
Theorem remove_front_add_front m lst ls nl nn :
  chain m lst ls -> lst ≠ NULL ->
  nodes m !! nl = Some nn -> nl ∉ ls ->
  ∃ m',
    (let* h := add_front lst (Some nl) in remove_front h) m = Ok (lst, m') ∧
    chain m' lst ls ∧
    ∀ l, l ∈ ls -> nodes m' !! l = nodes m !! l.
Proof.
  intros Hc _ Hn Hnl. exists (set_next nl lst m).
  assert (∀ l, l ∈ ls -> nodes (set_next nl lst m) !! l = nodes m !! l) as Hfr.
  { intros l Hin. apply nodes_set_next_ne. congruence. }
  split_and!; [|by eapply chain_frame|done].
  unfold add_front, remove_front. rewrite bind_assoc. mstep.
  rewrite bind_ret.
  by erewrite get_next_ok by (by erewrite nodes_set_next_eq).
Qed.

Lemma remove_front_add_front_witness :
  ∃ m',
    (let* h := add_front (Some 1%positive) (Some 3%positive) in remove_front h)
      (mem_of_chain tie_songs 2) = Ok (Some 1%positive, m') ∧
    chain m' (Some 1%positive) [1%positive; 2%positive] ∧
    ∀ l, l ∈ [1%positive; 2%positive] ->
         nodes m' !! l = nodes (mem_of_chain tie_songs 2) !! l.
Proof.
  apply (remove_front_add_front (mem_of_chain tie_songs 2) (Some 1%positive)
           [1%positive; 2%positive] 3%positive (Node.mk (Some 3%positive) NULL)).
  - simpl. split; [reflexivity|]. eexists. split; [reflexivity|].
    simpl. split; [reflexivity|]. eexists. split; reflexivity.
  - discriminate.
  - reflexivity.
  - apply (bool_decide_unpack _). by vm_compute.
Defined.

(** C8.  [add_end] returns the original head of a non-empty list and the
    new node for the empty list; either way the new node is the last node
    of the chain and its next-link is none. *)
Theorem add_end_appends m lst ls nl nn fuel :
  chain m lst ls ->
  nodes m !! nl = Some nn -> nl ∉ ls ->
  (length ls <= fuel)%nat ->
  ∃ m' n',
    add_end fuel lst (Some nl) m
      = Ok (match lst with Some _ => lst | None => Some nl end, m') ∧
    chain m' (match lst with Some _ => lst | None => Some nl end) (ls ++ [nl]) ∧
    nodes m' !! nl = Some n' ∧ Node.next n' = NULL.
Proof.
  intros Hc Hn Hnl Hfuel. destruct ls as [|l ls].
  - simpl in Hc. rewrite Hc. unfold add_end, NULL. mstep.
    exists (set_next nl None m), (Node.mk (Node.song nn) None).
    split_and!; [done| |by erewrite nodes_set_next_eq|done].
    simpl. split; [done|]. eexists. by erewrite nodes_set_next_eq.
  - pose proof Hc as (-> & _).
    destruct (add_end_walk (Some l) nl nn ls l fuel m Hc Hn Hnl Hfuel)
      as (m' & Hrun & Hc' & Hn' & _).
    exists m', (Node.mk (Node.song nn) NULL). by split_and!.
Qed.

Lemma add_end_appends_witness :
  ∃ m' n',
    add_end 2 (Some 1%positive) (Some 3%positive) (mem_of_chain tie_songs 2)
      = Ok (Some 1%positive, m') ∧
    chain m' (Some 1%positive) [1%positive; 2%positive; 3%positive] ∧
    nodes m' !! 3%positive = Some n' ∧ Node.next n' = NULL.
Proof.
  apply (add_end_appends (mem_of_chain tie_songs 2) (Some 1%positive)
           [1%positive; 2%positive] 3%positive (Node.mk (Some 3%positive) NULL) 2).
  - simpl. split; [reflexivity|]. eexists. split; [reflexivity|].
    simpl. split; [reflexivity|]. eexists. split; reflexivity.
  - reflexivity.
  - apply (bool_decide_unpack _). by vm_compute.
  - simpl. lia.
Defined.

(** C9.  [remove_front] returns the second node, or none for a list of one
    node or none; the memory after it is the memory before it, so the
    removed node and its song are still allocated; two [peek_front] calls
    return the same head and leave the memory, hence every next-link, as
    it was. *)
Theorem remove_front_peek_front_frame m lst ls :
  chain m lst ls ->
  remove_front lst m
    = Ok (match ls with _ :: l2 :: _ => Some l2 | _ => NULL end, m) ∧
  (let* a := peek_front lst in let* b := peek_front lst in ret (a, b)) m
    = Ok ((lst, lst), m).
Proof.
  intros Hc. split; [|done].
  destruct ls as [|l ls]; [by rewrite Hc|].
  destruct Hc as (-> & n & Hn & Hc). unfold remove_front.
  rewrite (get_next_ok _ _ _ Hn).
  destruct ls as [|l2 ls]; [by rewrite Hc | by destruct Hc as (-> & _)].
Qed.

Lemma remove_front_peek_front_frame_witness :
  remove_front (Some 1%positive) (mem_of_chain tie_songs 2)
    = Ok (Some 2%positive, mem_of_chain tie_songs 2) ∧
  (let* a := peek_front (Some 1%positive) in
   let* b := peek_front (Some 1%positive) in ret (a, b))
    (mem_of_chain tie_songs 2)
    = Ok ((Some 1%positive, Some 1%positive), mem_of_chain tie_songs 2).
Proof.
  apply (remove_front_peek_front_frame (mem_of_chain tie_songs 2)
           (Some 1%positive) [1%positive; 2%positive]).
  simpl. split; [reflexivity|]. eexists. split; [reflexivity|].
  simpl. split; [reflexivity|]. eexists. split; reflexivity.
Defined.

(** C10.  [remove_front] on a non-empty list writes nothing: the former
    head keeps its next-link, which is the returned new head. *)
Theorem remove_front_keeps_link m lst l ls :
  chain m lst (l :: ls) ->
  ∃ n h m',
    remove_front lst m = Ok (h, m') ∧
    nodes m !! l = Some n ∧ nodes m' !! l = Some n ∧ Node.next n = h.
Proof.
  intros (-> & n & Hn & Hc). exists n, (Node.next n), m.
  split_and!; try done. unfold remove_front. by apply get_next_ok.
Qed.

Lemma remove_front_keeps_link_witness :
  ∃ n h m',
    remove_front (Some 1%positive) (mem_of_chain tie_songs 2) = Ok (h, m') ∧
    nodes (mem_of_chain tie_songs 2) !! 1%positive = Some n ∧
    nodes m' !! 1%positive = Some n ∧ Node.next n = h.
Proof.
  apply (remove_front_keeps_link (mem_of_chain tie_songs 2) (Some 1%positive)
           1%positive [2%positive]).
  simpl. split; [reflexivity|]. eexists. split; [reflexivity|].
  simpl. split; [reflexivity|]. eexists. split; reflexivity.
Defined.

Lemma apply_visit_all {W A} (fn : @visitor W A) (arg : A) ls :
  keeps_links fn ->
  ∀ lst s fuel, chain s.1 lst ls -> (length ls < fuel)%nat ->
    apply fuel lst fn arg s = visit_all fn arg ls s.
Proof.
  intros Hfn. induction ls as [|l ls IH]; intros lst s fuel Hc Hfuel;
    (destruct fuel as [|fuel]; [simpl in Hfuel; lia|]).
  - simpl in Hc. by rewrite Hc.
  - destruct Hc as (-> & n & Hn & Hc). unfold apply. cbn [while visit_all].
    rewrite !bind_assoc, bind_ret.
    rewrite bool_decide_true by done. rewrite !bind_assoc.
    destruct (fn (Some l) arg s) as [[u s1]| |] eqn:Hcall;
      [|by rewrite !(bind_Fault _ _ _ Hcall)
       |by rewrite !(bind_Timeout _ _ _ Hcall)].
    rewrite !(bind_Ok _ _ _ _ _ Hcall).
    pose proof (Hfn _ _ _ _ _ Hcall l) as Hl. rewrite Hn in Hl.
    destruct (nodes s1.1 !! l) as [n1|] eqn:Hn1; [|done].
    injection Hl as Hl.
    assert (lift (W:=W) (get_next (Some l)) s1 = Ok (Node.next n, s1)) as Hnext.
    { unfold lift. rewrite (get_next_ok _ _ _ Hn1), Hl. by destruct s1. }
    rewrite (bind_Ok _ _ _ _ _ Hnext).
    apply (IH (Node.next n) s1 fuel); [|simpl in *; lia].
    eapply chain_links; [|done]. by apply (Hfn _ _ _ _ _ Hcall).
Qed.

(** C7.  On a chain of k nodes [apply] makes exactly the k visitor calls
    [fn(l1, arg)], ..., [fn(lk, arg)], head to tail, and ends: for every
    visitor that leaves the links alone its effect is that of these calls in
    sequence (nothing the visitor returns can stop the loop), and the
    recording visitor logs exactly these k calls. *)
Theorem apply_visits_each_node_once {A} (arg : A) m lst ls fuel :
  chain m lst ls -> (length ls < fuel)%nat ->
  (∀ W (fn : @visitor W A) (w : W), keeps_links fn ->
     apply fuel lst fn arg (m, w) = visit_all fn arg ls (m, w)) ∧
  apply fuel lst record arg (m, [])
    = Ok (tt, (m, (fun l => (Some l, arg)) <$> ls)) ∧
  ∃ calls, apply fuel lst record arg (m, []) = Ok (tt, (m, calls)) ∧
           length calls = length ls.
Proof.
  intros Hc Hfuel.
  assert (keeps_links (@record A)) as Hrec.
  { intros p a s u s' [= <- <-] l. done. }
  assert (∀ ls' m' (w : list (ptr * A)),
            visit_all record arg ls' (m', w)
            = Ok (tt, (m', w ++ ((fun l => (Some l, arg)) <$> ls')))) as Hlog.
  { induction ls' as [|l ls' IH]; intros m' w; simpl.
    - by rewrite app_nil_r.
    - unfold bind, record at 1. simpl. rewrite IH. by rewrite <- app_assoc. }
  assert (apply fuel lst record arg (m, [])
          = Ok (tt, (m, (fun l => (Some l, arg)) <$> ls))) as Happ.
  { rewrite (apply_visit_all record arg ls Hrec lst (m, []) fuel Hc Hfuel).
    apply Hlog. }
  split_and!.
  - intros W fn w Hfn. by apply apply_visit_all.
  - done.
  - eexists. split; [done|]. by rewrite length_fmap.
Qed.

Lemma apply_visits_each_node_once_witness :
  apply 3 (Some 1%positive) record 7%Z (mem_of_chain tie_songs 2, [])
  = Ok (tt, (mem_of_chain tie_songs 2,
             [(Some 1%positive, 7%Z); (Some 2%positive, 7%Z)])).
Proof.
  apply (apply_visits_each_node_once 7%Z (mem_of_chain tie_songs 2)
           (Some 1%positive) [1%positive; 2%positive] 3).
  - simpl. split; [reflexivity|]. eexists. split; [reflexivity|].
    simpl. split; [reflexivity|]. eexists. split; reflexivity.
  - simpl. lia.
Defined.

(** * Further properties of the code *)

(** ** What the list operations leave alone *)

Lemma bind_Ok_inv {St A B} (c : M St A) (k : A -> M St B) s r :
  bind c k s = Ok r -> ∃ a s', c s = Ok (a, s') ∧ k a s' = Ok r.
Proof. unfold bind. destruct (c s) as [[a s']| |]; [eauto|done|done]. Qed.

Lemma keeps_ret {A} (a : A) : keeps_songs (ret a).
Proof. by intros m a' m' [= <- <-]. Qed.

Lemma keeps_fault {A} : keeps_songs (@fault mem A).
Proof. by intros m a m'. Qed.

Lemma keeps_bind {A B} (c : M mem A) (k : A -> M mem B) :
  keeps_songs c -> (∀ a, keeps_songs (k a)) -> keeps_songs (bind c k).
Proof.
  intros Hc Hk m b m' (a & m1 & H1 & H2)%bind_Ok_inv.
  destruct (Hc _ _ _ H1) as (E1 & E2 & E3).
  destruct (Hk a _ _ _ H2) as (F1 & F2 & F3).
  split_and!; [congruence | congruence |]. intros l. by rewrite F3, E3.
Qed.

Lemma keeps_load_node p : keeps_songs (load_node p).
Proof.
  intros m a m'. unfold load_node. destruct p as [l|]; [|done].
  destruct (nodes m !! l); [|done]. by intros [= <- <-].
Qed.

Lemma keeps_load_song p : keeps_songs (load_song p).
Proof.
  intros m a m'. unfold load_song. destruct p as [l|]; [|done].
  destruct (songs m !! l); [|done]. by intros [= <- <-].
Qed.

Lemma keeps_store_next p v : keeps_songs (store_next p v).
Proof.
  intros m a m'. unfold store_next. destruct p as [l|]; [|done].
  destruct (nodes m !! l) as [n|] eqn:Hn; [|done]. intros [= <- <-].
  cbn [songs nodes]. split_and!; [done| |].
  - rewrite dom_insert_L. apply subseteq_union_1_L, singleton_subseteq_l.
    by eapply elem_of_dom_2.
  - intros l'. destruct (decide (l = l')) as [<-|Hne].
    + by rewrite lookup_insert_eq, Hn.
    + by rewrite lookup_insert_ne.
Qed.

Lemma keeps_get_next p : keeps_songs (get_next p).
Proof.
  apply keeps_bind; [apply keeps_load_node | intros; apply keeps_ret].
Qed.

Lemma keeps_get_comparator p : keeps_songs (get_comparator p).
Proof.
  apply keeps_bind; [apply keeps_load_node|]. intros n.
  apply keeps_bind; [apply keeps_load_song | intros; apply keeps_ret].
Qed.

Lemma keeps_get_title p : keeps_songs (get_title p).
Proof.
  apply keeps_bind; [apply keeps_load_node|]. intros n.
  apply keeps_bind; [apply keeps_load_song | intros; apply keeps_ret].
Qed.

Lemma keeps_get_artist p : keeps_songs (get_artist p).
Proof.
  apply keeps_bind; [apply keeps_load_node|]. intros n.
  apply keeps_bind; [apply keeps_load_song | intros; apply keeps_ret].
Qed.

Lemma keeps_while {T} (cond : T -> M mem bool) (body : T -> M mem T) fuel :
  (∀ t, keeps_songs (cond t)) -> (∀ t, keeps_songs (body t)) ->
  ∀ t, keeps_songs (while fuel cond body t).
Proof.
  intros Hc Hb. induction fuel as [|fuel IH]; intros t; cbn [while].
  - by intros m a m'.
  - apply keeps_bind; [apply Hc|]. intros [|]; [|apply keeps_ret].
    apply keeps_bind; [apply Hb | apply IH].
Qed.

Ltac keeps :=
  repeat first
    [ apply keeps_ret | apply keeps_fault
    | apply keeps_store_next | apply keeps_get_next
    | apply keeps_get_comparator | apply keeps_get_title
    | apply keeps_get_artist
    | apply keeps_bind; [|intros ?]
    | apply keeps_while; intros [? ?]
    | match goal with
      | |- keeps_songs (if ?b then _ else _) => destruct b
      | |- keeps_songs (match ?p with Some _ => _ | None => _ end) => destruct p
      | |- keeps_songs (let (_, _) := ?p in _) => destruct p
      end ].

Lemma keeps_add_front lst new : keeps_songs (add_front lst new).
Proof. unfold add_front. keeps. Qed.

Lemma keeps_add_end fuel lst new : keeps_songs (add_end fuel lst new).
Proof. unfold add_end, last_node. keeps. apply keeps_while; intros ?; keeps. Qed.

Lemma keeps_add_inorder fuel lst new : keeps_songs (add_inorder fuel lst new).
Proof. unfold add_inorder, scan_ties_head, scan_greater, scan_ties. keeps. Qed.

Lemma keeps_song_of m m' :
  songs m' = songs m ->
  (∀ l, Node.song <$> nodes m' !! l = Node.song <$> nodes m !! l) ->
  ∀ l, song_of m' l = song_of m l.
Proof.
  intros Hs Hn l. unfold song_of. specialize (Hn l). rewrite Hs.
  destruct (nodes m' !! l) as [n'|], (nodes m !! l) as [n|]; simplify_eq/=;
    [by rewrite Hn | done].
Qed.

(** X12.  Whatever the memory, a call of [add_front], [add_end],
    [add_inorder], [remove_front] or [peek_front] that returns has written
    no song, has allocated and freed no node, and has left the song
    reference of every node as it was: only next-links are written. *)
Theorem list_operations_keep_songs (fuel : nat) (lst new : ptr) :
  keeps_songs (add_front lst new) ∧
  keeps_songs (add_end fuel lst new) ∧
  keeps_songs (add_inorder fuel lst new) ∧
  keeps_songs (remove_front lst) ∧
  keeps_songs (peek_front lst).
Proof.
  split_and!.
  - apply keeps_add_front.
  - apply keeps_add_end.
  - apply keeps_add_inorder.
  - unfold remove_front. keeps.
  - unfold peek_front. keeps.
Qed.

(** ** Creating nodes and linking them at either end *)

(** X1.  [new_node] on [NULL] does not return (the [assert]); on a song
    reference it returns a node that was not allocated before and so lies
    on no existing list, holding that reference and no successor, and every
    existing list and the song store read as before. *)
Theorem new_node_contract m sp lst xs :
  is_list m lst xs ->
  new_node NULL m = Fault ∧
  ∃ nl m',
    new_node (Some sp) m = Ok (Some nl, m') ∧
    nodes m !! nl = None ∧ (nl ∉ xs.*1) ∧
    nodes m' !! nl = Some (Node.mk (Some sp) NULL) ∧
    is_list m' lst xs ∧ songs m' = songs m ∧
    ∀ l, l ≠ nl -> nodes m' !! l = nodes m !! l.
Proof.
  intros Hl. split; [done|]. set (nl := fresh (dom (nodes m))).
  assert (nl ∉ dom (nodes m)) as Hfresh by apply is_fresh.
  assert (nl ∉ xs.*1) as Hnl.
  { intros Hin. by apply Hfresh, (is_list_allocated _ _ _ _ Hl). }
  exists nl, (Mem (songs m) (<[nl := Node.mk (Some sp) NULL]> (nodes m))).
  split_and!.
  - reflexivity.
  - by apply not_elem_of_dom.
  - done.
  - cbn [nodes]. apply lookup_insert_eq.
  - apply (is_list_frame m); [|done|done]. intros l Hin. cbn [nodes].
    apply lookup_insert_ne. congruence.
  - done.
  - intros l Hne. cbn [nodes]. by apply lookup_insert_ne.
Qed.

Lemma new_node_contract_witness :
  new_node NULL (mem_of_chain tie_songs 2) = Fault ∧
  ∃ nl m',
    new_node (Some 3%positive) (mem_of_chain tie_songs 2) = Ok (Some nl, m') ∧
    nodes (mem_of_chain tie_songs 2) !! nl = None ∧
    (nl ∉ [(1%positive, Song.mk "p" "C" 3); (2%positive, Song.mk "q" "B" 3)].*1) ∧
    nodes m' !! nl = Some (Node.mk (Some 3%positive) NULL) ∧
    is_list m' (Some 1%positive)
      [(1%positive, Song.mk "p" "C" 3); (2%positive, Song.mk "q" "B" 3)] ∧
    songs m' = songs (mem_of_chain tie_songs 2) ∧
    ∀ l, l ≠ nl -> nodes m' !! l = nodes (mem_of_chain tie_songs 2) !! l.
Proof.
  apply (new_node_contract (mem_of_chain tie_songs 2) 3%positive (Some 1%positive)
           [(1%positive, Song.mk "p" "C" 3); (2%positive, Song.mk "q" "B" 3)]).
  by apply (traverse_is_list 2).
Defined.

(** X2.  [add_front] of a newly created node puts the song in front of any
    list, the empty one included: the new node is the head and the old list
    follows it unchanged. *)
Theorem new_node_add_front_pushes m lst xs sp s :
  is_list m lst xs -> songs m !! sp = Some s ->
  ∃ nl m',
    (let* n := new_node (Some sp) in add_front lst n) m = Ok (Some nl, m') ∧
    (nl ∉ xs.*1) ∧ is_list m' (Some nl) ((nl, s) :: xs).
Proof.
  intros Hl Hsp.
  destruct (new_node_spec m sp s lst xs Hsp Hl)
    as (nl & m1 & Hnew & Hnl & Hs & Hfresh & Hl1 & Hsg1).
  exists nl, (set_next nl lst m1). split_and!; [|done|by eapply is_list_push].
  rewrite (bind_Ok _ _ _ _ _ Hnew). unfold add_front. by mstep.
Qed.

Lemma new_node_add_front_pushes_witness :
  ∃ nl m',
    (let* n := new_node (Some 3%positive) in add_front (Some 1%positive) n)
      (mem_of_chain tie_songs 2) = Ok (Some nl, m') ∧
    (nl ∉ [(1%positive, Song.mk "p" "C" 3); (2%positive, Song.mk "q" "B" 3)].*1) ∧
    is_list m' (Some nl)
      [(nl, Song.mk "r" "A" 3);
       (1%positive, Song.mk "p" "C" 3); (2%positive, Song.mk "q" "B" 3)].
Proof.
  apply (new_node_add_front_pushes (mem_of_chain tie_songs 2) (Some 1%positive)
           [(1%positive, Song.mk "p" "C" 3); (2%positive, Song.mk "q" "B" 3)]
           3%positive (Song.mk "r" "A" 3)).
  - by apply (traverse_is_list 2).
  - reflexivity.
Defined.

Lemma add_end_is_list m lst xs nl nn ns fuel :
  is_list m lst xs ->
  nodes m !! nl = Some nn -> song_of m nl = Some ns -> nl ∉ xs.*1 ->
  (length xs <= fuel)%nat ->
  ∃ m', add_end fuel lst (Some nl) m
          = Ok (match lst with Some _ => lst | None => Some nl end, m') ∧
    is_list m' (match lst with Some _ => lst | None => Some nl end)
      (xs ++ [(nl, ns)]).
Proof.
  intros Hl Hn Hs Hnl Hfuel.
  assert (∃ m', add_end fuel lst (Some nl) m
                  = Ok (match lst with Some _ => lst | None => Some nl end, m') ∧
            chain m' (match lst with Some _ => lst | None => Some nl end)
              (xs.*1 ++ [nl])) as (m' & Hrun & Hc).
  { destruct Hl as [Hc _]. destruct xs as [|x xs].
    - simpl in Hc. rewrite Hc. unfold add_end, NULL. mstep.
      eexists. split; [done|]. simpl. split; [done|].
      eexists. by erewrite nodes_set_next_eq.
    - rewrite fmap_cons in Hc, Hnl. pose proof Hc as (-> & _).
      rewrite length_cons, <- (length_fmap fst) in Hfuel.
      destruct (add_end_walk (Some x.1) nl nn (xs.*1) x.1 fuel m Hc Hn Hnl Hfuel)
        as (m' & Hrun & Hc' & _).
      exists m'. split; [done|]. by rewrite fmap_cons. }
  exists m'. split; [done|]. split; [by rewrite fmap_app|].
  destruct (keeps_add_end _ _ _ _ _ _ Hrun) as (Hsg & _ & Hsn).
  pose proof (keeps_song_of _ _ Hsg Hsn) as Hso.
  destruct Hl as [_ Hall]. apply Forall_app. split.
  - eapply Forall_impl; [done|]. intros y Hy. simpl. by rewrite Hso.
  - repeat constructor. simpl. by rewrite Hso.
Qed.

(** X3.  [add_end] of a newly created node puts the song behind any list:
    the nodes that were there keep their order in front of it, the head is
    the old head, or the new node when the list was empty. *)
Theorem new_node_add_end_appends m lst xs sp s fuel :
  is_list m lst xs -> songs m !! sp = Some s ->
  (length xs <= fuel)%nat ->
  ∃ nl m',
    (let* n := new_node (Some sp) in add_end fuel lst n) m
      = Ok (match lst with Some _ => lst | None => Some nl end, m') ∧
    (nl ∉ xs.*1) ∧
    is_list m' (match lst with Some _ => lst | None => Some nl end)
      (xs ++ [(nl, s)]).
Proof.
  intros Hl Hsp Hfuel.
  destruct (new_node_spec m sp s lst xs Hsp Hl)
    as (nl & m1 & Hnew & Hnl & Hs & Hfresh & Hl1 & Hsg1).
  destruct (add_end_is_list m1 lst xs nl _ s fuel Hl1 Hnl Hs Hfresh Hfuel)
    as (m' & Hrun & Hl').
  exists nl, m'. split_and!; [|done|done].
  by rewrite (bind_Ok _ _ _ _ _ Hnew).
Qed.

Lemma new_node_add_end_appends_witness :
  ∃ nl m',
    (let* n := new_node (Some 3%positive) in add_end 2 (Some 1%positive) n)
      (mem_of_chain tie_songs 2) = Ok (Some 1%positive, m') ∧
    (nl ∉ [(1%positive, Song.mk "p" "C" 3); (2%positive, Song.mk "q" "B" 3)].*1) ∧
    is_list m' (Some 1%positive)
      ([(1%positive, Song.mk "p" "C" 3); (2%positive, Song.mk "q" "B" 3)]
         ++ [(nl, Song.mk "r" "A" 3)]).
Proof.
  apply (new_node_add_end_appends (mem_of_chain tie_songs 2) (Some 1%positive)
           [(1%positive, Song.mk "p" "C" 3); (2%positive, Song.mk "q" "B" 3)]
           3%positive (Song.mk "r" "A" 3) 2).
  - by apply (traverse_is_list 2).
  - reflexivity.
  - simpl. lia.
Defined.

(** ** One call of [add_inorder] on any list *)

Section InsMore.
Context {A : Type} (sg : A -> Song.t).

Lemma ins_None_iff x xs :
  ins sg x xs = None <->
  ∃ h t, xs = h :: t ∧ t ≠ [] ∧ cmp sg x = cmp sg h ∧
         strcmp (title sg x) (title sg h) <= 0 ∧
         Forall (fun y => tie_before sg x y = true) t.
Proof.
  destruct xs as [|h [|h' t]]; unfold ins; cbv beta iota.
  - split; [done|]. by intros (? & ? & ? & _).
  - split; [by repeat case_match|]. by intros (? & ? & [= <- <-] & ? & _).
  - destruct (Z.gtb_spec (cmp sg x) (cmp sg h)) as [Hgt|Hle].
    { split; [done|]. intros (? & ? & [= <- <-] & _ & E & _). lia. }
    destruct (Z.eqb_spec (cmp sg x) (cmp sg h)) as [Heq|Hne].
    + destruct (Z.gtb_spec (strcmp (title sg x) (title sg h)) 0) as [Ht|Ht].
      { split; [done|]. intros (? & ? & [= <- <-] & _ & _ & E & _). lia. }
      destruct (ins_ties_head sg x (h' :: t)) as [r|] eqn:E; simpl.
      * split; [done|]. intros (? & ? & [= <- <-] & _ & _ & _ & Hall).
        apply ins_ties_head_None in Hall. congruence.
      * split; [|done]. intros _. exists h, (h' :: t).
        split_and!; try done. by apply ins_ties_head_None.
    + split; [done|]. by intros (? & ? & [= <- <-] & _ & E & _).
Qed.

Lemma ins_ties_all_less x t :
  Forall (fun y => cmp sg x < cmp sg y) t -> ins_ties sg x t = x :: t.
Proof.
  destruct t as [|y t]; [done|]. intros [Hy _]%Forall_cons. simpl.
  unfold tie_before. destruct (Z.eqb_spec (cmp sg x) (cmp sg y)); [lia|done].
Qed.

Lemma ins_greater_all_greater x t :
  Forall (fun y => cmp sg x < cmp sg y) t -> ins_greater sg x t = t ++ [x].
Proof.
  induction t as [|y t IH]; [done|]. intros [Hy Ht]%Forall_cons. simpl.
  destruct (Z.ltb_spec (cmp sg x) (cmp sg y)); [|lia]. by rewrite IH.
Qed.

Lemma ins_below_all x xs :
  xs ≠ [] -> Forall (fun y => cmp sg x < cmp sg y) xs ->
  ins sg x xs = Some (xs ++ [x]).
Proof.
  intros Hne Hall. destruct xs as [|h [|h' t]]; [done| |]; unfold ins;
    cbv beta iota; pose proof Hall as [Hh Ht]%Forall_cons.
  - by destruct (Z.gtb_spec (cmp sg h) (cmp sg x)); [|lia].
  - destruct (Z.gtb_spec (cmp sg x) (cmp sg h)); [lia|].
    destruct (Z.eqb_spec (cmp sg x) (cmp sg h)); [lia|].
    by rewrite (ins_greater_all_greater x (h' :: t)).
Qed.

Lemma song_desc_ins_sorted_one x h r :
  cmp sg h ≠ cmp sg x -> ins sg x [h] = Some r -> Sorted (song_desc sg) r.
Proof.
  intros Hne. unfold ins.
  destruct (Z.gtb_spec (cmp sg h) (cmp sg x));
    [|destruct (Z.ltb_spec (cmp sg h) (cmp sg x)); [|lia]];
    intros [= <-]; repeat constructor; unfold song_desc; lia.
Qed.
End InsMore.

(** The hypotheses on a call [add_inorder(lst, new)]: [lst] is a list
    [xs], and [new] is a node apart from it, as [new_node] makes it. *)
Lemma add_inorder_cases m lst xs nl nn ns fuel :
  is_list m lst xs ->
  nodes m !! nl = Some nn -> Node.next nn = NULL -> song_of m nl = Some ns ->
  nl ∉ xs.*1 ->
  (length xs <= fuel)%nat ->
  (ins snd (nl, ns) xs = None ∧ add_inorder fuel lst (Some nl) m = Fault) ∨
  ∃ xs' m', ins snd (nl, ns) xs = Some xs' ∧
    add_inorder fuel lst (Some nl) m = Ok (head_ptr xs', m') ∧
    is_list m' (head_ptr xs') xs' ∧
    ∀ l, l ≠ nl -> (l ∉ xs.*1) -> nodes m' !! l = nodes m !! l.
Proof.
  intros Hl Hn Hnx Hs Hnl Hfuel.
  pose proof (add_inorder_refines m lst xs nl nn ns fuel
                Hl Hn Hnx Hs Hnl (fun _ => Hfuel)) as Href.
  destruct (ins snd (nl, ns) xs) as [xs'|]; [right|by left].
  destruct Href as (m' & Hrun & Hl' & _ & _ & Hfr). by exists xs', m'.
Qed.

(** X4.  On a list and a fresh node, [add_inorder] ends: it faults or it
    returns the head of a list that is the old list with the new node put
    in at one position, the old nodes in their order; no node outside the
    list is written. *)
Theorem add_inorder_inserts m lst xs nl nn ns fuel :
  is_list m lst xs ->
  nodes m !! nl = Some nn -> Node.next nn = NULL -> song_of m nl = Some ns ->
  nl ∉ xs.*1 ->
  (length xs <= fuel)%nat ->
  add_inorder fuel lst (Some nl) m = Fault ∨
  ∃ xs' m',
    add_inorder fuel lst (Some nl) m = Ok (head_ptr xs', m') ∧
    is_list m' (head_ptr xs') xs' ∧
    inserted (nl, ns) xs xs' ∧
    ∀ l, l ≠ nl -> (l ∉ xs.*1) -> nodes m' !! l = nodes m !! l.
Proof.
  intros Hl Hn Hnx Hs Hnl Hfuel.
  destruct (add_inorder_cases m lst xs nl nn ns fuel Hl Hn Hnx Hs Hnl Hfuel)
    as [[_ Hf]|(xs' & m' & Hins & Hrun & Hl' & Hfr)]; [by left|right].
  exists xs', m'. split_and!; try done. by apply ins_inserted in Hins.
Qed.

Lemma add_inorder_inserts_witness :
  add_inorder 2 (Some 1%positive) (Some 3%positive) (mem_of_chain falling_songs 2)
    = Fault ∨
  ∃ xs' m',
    add_inorder 2 (Some 1%positive) (Some 3%positive) (mem_of_chain falling_songs 2)
      = Ok (head_ptr xs', m') ∧
    is_list m' (head_ptr xs') xs' ∧
    inserted (3%positive, Song.mk "r" "C" 1)
      [(1%positive, Song.mk "p" "A" 5); (2%positive, Song.mk "q" "B" 4)] xs' ∧
    ∀ l, l ≠ 3%positive ->
      (l ∉ [(1%positive, Song.mk "p" "A" 5); (2%positive, Song.mk "q" "B" 4)].*1) ->
      nodes m' !! l = nodes (mem_of_chain falling_songs 2) !! l.
Proof.
  apply (add_inorder_inserts (mem_of_chain falling_songs 2) (Some 1%positive)
           [(1%positive, Song.mk "p" "A" 5); (2%positive, Song.mk "q" "B" 4)]
           3%positive (Node.mk (Some 3%positive) NULL) (Song.mk "r" "C" 1) 2).
  - by apply (traverse_is_list 2).
  - reflexivity.
  - reflexivity.
  - reflexivity.
  - apply (bool_decide_unpack _). by vm_compute.
  - simpl. lia.
Defined.

(** X5.  On a list and a fresh node, [add_inorder] faults exactly when
    the list has two nodes or more, the new comparator equals the head's,
    the new title is not above the head's, and every later node has the
    new comparator and a title above the new one (the scan of lines 131-134
    then runs off the end). *)
Theorem add_inorder_faults_iff m lst xs nl nn ns fuel :
  is_list m lst xs ->
  nodes m !! nl = Some nn -> Node.next nn = NULL -> song_of m nl = Some ns ->
  nl ∉ xs.*1 ->
  (length xs <= fuel)%nat ->
  add_inorder fuel lst (Some nl) m = Fault <->
  ∃ h t, xs = h :: t ∧ t ≠ [] ∧
    Song.comparator ns = Song.comparator h.2 ∧
    strcmp (Song.song ns) (Song.song h.2) <= 0 ∧
    Forall (fun y => Song.comparator ns = Song.comparator y.2 ∧
                     strcmp (Song.song ns) (Song.song y.2) < 0) t.
Proof.
  intros Hl Hn Hnx Hs Hnl Hfuel.
  assert (ins snd (nl, ns) xs = None <->
          add_inorder fuel lst (Some nl) m = Fault) as <-.
  { destruct (add_inorder_cases m lst xs nl nn ns fuel Hl Hn Hnx Hs Hnl Hfuel)
      as [[H1 H2]|(xs' & m' & Hins & Hrun & _)]; [done|].
    rewrite Hins, Hrun. done. }
  rewrite ins_None_iff. unfold cmp, title. simpl snd.
  split; intros (h & t & -> & Ht & Hc & Hti & Hall); exists h, t;
    (split_and!; try done); eapply Forall_impl; try done; intros y;
    by rewrite tie_before_true.
Qed.

Lemma add_inorder_faults_iff_witness :
  add_inorder 2 (Some 1%positive) (Some 3%positive) (mem_of_chain tie_songs 2)
    = Fault <->
  ∃ h t, [(1%positive, Song.mk "p" "C" 3); (2%positive, Song.mk "q" "B" 3)]
           = h :: t ∧ t ≠ [] ∧
    Song.comparator (Song.mk "r" "A" 3) = Song.comparator h.2 ∧
    strcmp (Song.song (Song.mk "r" "A" 3)) (Song.song h.2) <= 0 ∧
    Forall (fun y => Song.comparator (Song.mk "r" "A" 3) = Song.comparator y.2 ∧
                     strcmp (Song.song (Song.mk "r" "A" 3)) (Song.song y.2) < 0) t.
Proof.
  apply (add_inorder_faults_iff (mem_of_chain tie_songs 2) (Some 1%positive)
           [(1%positive, Song.mk "p" "C" 3); (2%positive, Song.mk "q" "B" 3)]
           3%positive (Node.mk (Some 3%positive) NULL) (Song.mk "r" "A" 3) 2).
  - by apply (traverse_is_list 2).
  - reflexivity.
  - reflexivity.
  - reflexivity.
  - apply (bool_decide_unpack _). by vm_compute.
  - simpl. lia.
Defined.

(** X6.  One call of [add_inorder] keeps a list sorted by comparator
    descending: on such a list and a fresh node the call faults or returns a
    list that is again sorted by comparator descending. *)
Theorem add_inorder_keeps_comparator_order m lst xs nl nn ns fuel :
  is_list m lst xs ->
  nodes m !! nl = Some nn -> Node.next nn = NULL -> song_of m nl = Some ns ->
  nl ∉ xs.*1 ->
  (length xs <= fuel)%nat ->
  Sorted (cmp_desc snd) xs ->
  add_inorder fuel lst (Some nl) m = Fault ∨
  ∃ xs' m',
    add_inorder fuel lst (Some nl) m = Ok (head_ptr xs', m') ∧
    is_list m' (head_ptr xs') xs' ∧
    StronglySorted (cmp_desc snd) xs'.
Proof.
  intros Hl Hn Hnx Hs Hnl Hfuel Hsorted.
  destruct (add_inorder_cases m lst xs nl nn ns fuel Hl Hn Hnx Hs Hnl Hfuel)
    as [[_ Hf]|(xs' & m' & Hins & Hrun & Hl' & Hfr)]; [by left|right].
  exists xs', m'. split_and!; try done.
  apply Sorted_StronglySorted; [apply cmp_desc_trans|].
  by eapply cmp_desc_ins_sorted.
Qed.

Lemma add_inorder_keeps_comparator_order_witness :
  add_inorder 2 (Some 1%positive) (Some 3%positive) (mem_of_chain falling_songs 2)
    = Fault ∨
  ∃ xs' m',
    add_inorder 2 (Some 1%positive) (Some 3%positive) (mem_of_chain falling_songs 2)
      = Ok (head_ptr xs', m') ∧
    is_list m' (head_ptr xs') xs' ∧
    StronglySorted (cmp_desc snd) xs'.
Proof.
  apply (add_inorder_keeps_comparator_order
           (mem_of_chain falling_songs 2) (Some 1%positive)
           [(1%positive, Song.mk "p" "A" 5); (2%positive, Song.mk "q" "B" 4)]
           3%positive (Node.mk (Some 3%positive) NULL) (Song.mk "r" "C" 1) 2).
  - by apply (traverse_is_list 2).
  - reflexivity.
  - reflexivity.
  - reflexivity.
  - apply (bool_decide_unpack _). by vm_compute.
  - simpl. lia.
  - apply Sorted_cons; [repeat constructor|].
    apply HdRel_cons. by vm_compute.
Defined.

(** X7.  One call of [add_inorder] keeps a list sorted by comparator
    descending and, among equal comparators, by title descending, provided
    the list is not a single node of the new node's comparator (where the
    artists decide): the call faults or returns a list sorted that way. *)
Theorem add_inorder_keeps_title_order m lst xs nl nn ns fuel :
  is_list m lst xs ->
  nodes m !! nl = Some nn -> Node.next nn = NULL -> song_of m nl = Some ns ->
  nl ∉ xs.*1 ->
  (length xs <= fuel)%nat ->
  Sorted (song_desc snd) xs ->
  (∀ h, xs = [h] -> Song.comparator h.2 ≠ Song.comparator ns) ->
  add_inorder fuel lst (Some nl) m = Fault ∨
  ∃ xs' m',
    add_inorder fuel lst (Some nl) m = Ok (head_ptr xs', m') ∧
    is_list m' (head_ptr xs') xs' ∧
    StronglySorted (song_desc snd) xs'.
Proof.
  intros Hl Hn Hnx Hs Hnl Hfuel Hsorted Hone.
  destruct (add_inorder_cases m lst xs nl nn ns fuel Hl Hn Hnx Hs Hnl Hfuel)
    as [[_ Hf]|(xs' & m' & Hins & Hrun & Hl' & Hfr)]; [by left|right].
  exists xs', m'. split_and!; try done.
  apply Sorted_StronglySorted; [apply song_desc_trans|].
  destruct xs as [|h [|h' t]].
  - injection Hins as <-. repeat constructor.
  - eapply song_desc_ins_sorted_one; [|done]. by apply Hone.
  - eapply song_desc_ins_sorted; [|done|done]. simpl. lia.
Qed.

Lemma add_inorder_keeps_title_order_witness :
  add_inorder 2 (Some 1%positive) (Some 3%positive) (mem_of_chain desc_tie_songs 2)
    = Fault ∨
  ∃ xs' m',
    add_inorder 2 (Some 1%positive) (Some 3%positive) (mem_of_chain desc_tie_songs 2)
      = Ok (head_ptr xs', m') ∧
    is_list m' (head_ptr xs') xs' ∧
    StronglySorted (song_desc snd) xs'.
Proof.
  apply (add_inorder_keeps_title_order
           (mem_of_chain desc_tie_songs 2) (Some 1%positive)
           [(1%positive, Song.mk "p" "C" 3); (2%positive, Song.mk "q" "A" 3)]
           3%positive (Node.mk (Some 3%positive) NULL) (Song.mk "r" "B" 3) 2).
  - by apply (traverse_is_list 2).
  - reflexivity.
  - reflexivity.
  - reflexivity.
  - apply (bool_decide_unpack _). by vm_compute.
  - simpl. lia.
  - apply Sorted_cons; [repeat constructor|].
    apply HdRel_cons. right. by vm_compute.
  - intros h [=].
Defined.

(** X8.  A new node that sorts before the head becomes the head with the
    old list behind it, without any scan and whatever its own next-link
    was: its comparator is above the head's, or, on a list of two nodes or
    more, equals the head's with a title above the head's. *)
Theorem add_inorder_before_head m lst h t nl nn ns fuel :
  is_list m lst (h :: t) ->
  nodes m !! nl = Some nn -> song_of m nl = Some ns ->
  nl ∉ (h :: t).*1 ->
  Song.comparator ns > Song.comparator h.2 ∨
    (t ≠ [] ∧ Song.comparator ns = Song.comparator h.2 ∧
     strcmp (Song.song ns) (Song.song h.2) > 0) ->
  ∃ m',
    add_inorder fuel lst (Some nl) m = Ok (Some nl, m') ∧
    is_list m' (Some nl) ((nl, ns) :: h :: t).
Proof.
  intros Hl Hn Hs Hnl Hbefore.
  exists (set_next nl lst m). split; [|by eapply is_list_push].
  pose proof Hl as (-> & Hhs & hn & Hhn & Ht)%is_list_cons.
  unfold add_inorder. mstep. destruct t as [|h' t].
  - apply is_list_nil in Ht. unfold NULL in Ht. rewrite Ht. cbv beta iota.
    destruct Hbefore as [Hgt|[? _]]; [|done]. repeat mstep.
    replace (Song.comparator h.2 >? Song.comparator ns) with false
      by (symmetry; rewrite Z.gtb_ltb; apply Z.ltb_ge; lia).
    repeat mstep.
    replace (Song.comparator h.2 <? Song.comparator ns) with true
      by (symmetry; apply Z.ltb_lt; lia).
    by repeat mstep.
  - pose proof Ht as (Hhx & _)%is_list_cons. rewrite Hhx. cbv beta iota.
    repeat mstep. destruct Hbefore as [Hgt|(_ & Heq & Hti)].
    + replace (Song.comparator ns >? Song.comparator h.2) with true
        by (symmetry; rewrite Z.gtb_ltb; apply Z.ltb_lt; lia).
      by repeat mstep.
    + replace (Song.comparator ns >? Song.comparator h.2) with false
        by (symmetry; rewrite Z.gtb_ltb; apply Z.ltb_ge; lia).
      repeat mstep.
      replace (Song.comparator ns =? Song.comparator h.2) with true
        by (symmetry; apply Z.eqb_eq; lia).
      repeat mstep.
      replace (strcmp (Song.song ns) (Song.song h.2) >? 0) with true
        by (symmetry; rewrite Z.gtb_ltb; apply Z.ltb_lt; lia).
      by repeat mstep.
Qed.

Lemma add_inorder_before_head_witness :
  ∃ m',
    add_inorder 0 (Some 1%positive) (Some 3%positive) (mem_of_chain rising_songs 2)
      = Ok (Some 3%positive, m') ∧
    is_list m' (Some 3%positive)
      [(3%positive, Song.mk "r" "C" 9);
       (1%positive, Song.mk "p" "A" 1); (2%positive, Song.mk "q" "B" 2)].
Proof.
  apply (add_inorder_before_head (mem_of_chain rising_songs 2) (Some 1%positive)
           (1%positive, Song.mk "p" "A" 1) [(2%positive, Song.mk "q" "B" 2)]
           3%positive (Node.mk (Some 3%positive) NULL) (Song.mk "r" "C" 9) 0).
  - by apply (traverse_is_list 2).
  - reflexivity.
  - reflexivity.
  - apply (bool_decide_unpack _). by vm_compute.
  - left. by vm_compute.
Defined.

(** X9.  A fresh node whose comparator is below that of every node of a
    non-empty list is linked behind the last node: the scans run to the end
    of the list, the head stays, and the old nodes keep their order. *)
Theorem add_inorder_below_all_appends m lst xs nl nn ns fuel :
  is_list m lst xs ->
  nodes m !! nl = Some nn -> Node.next nn = NULL -> song_of m nl = Some ns ->
  nl ∉ xs.*1 ->
  (length xs <= fuel)%nat ->
  xs ≠ [] ->
  Forall (fun y => Song.comparator ns < Song.comparator y.2) xs ->
  ∃ m',
    add_inorder fuel lst (Some nl) m = Ok (lst, m') ∧
    is_list m' lst (xs ++ [(nl, ns)]).
Proof.
  intros Hl Hn Hnx Hs Hnl Hfuel Hne Hall.
  pose proof (ins_below_all snd (nl, ns) xs Hne Hall) as Hins.
  destruct (add_inorder_cases m lst xs nl nn ns fuel Hl Hn Hnx Hs Hnl Hfuel)
    as [[Hnone _]|(xs' & m' & Hins' & Hrun & Hl' & _)]; [congruence|].
  rewrite Hins in Hins'. injection Hins' as <-.
  assert (head_ptr (xs ++ [(nl, ns)]) = lst) as Hhd.
  { rewrite (is_list_head _ _ _ Hl). by destruct xs. }
  rewrite Hhd in Hrun, Hl'. by exists m'.
Qed.

Lemma add_inorder_below_all_appends_witness :
  ∃ m',
    add_inorder 2 (Some 1%positive) (Some 3%positive) (mem_of_chain falling_songs 2)
      = Ok (Some 1%positive, m') ∧
    is_list m' (Some 1%positive)
      ([(1%positive, Song.mk "p" "A" 5); (2%positive, Song.mk "q" "B" 4)]
         ++ [(3%positive, Song.mk "r" "C" 1)]).
Proof.
  apply (add_inorder_below_all_appends
           (mem_of_chain falling_songs 2) (Some 1%positive)
           [(1%positive, Song.mk "p" "A" 5); (2%positive, Song.mk "q" "B" 4)]
           3%positive (Node.mk (Some 3%positive) NULL) (Song.mk "r" "C" 1) 2).
  - by apply (traverse_is_list 2).
  - reflexivity.
  - reflexivity.
  - reflexivity.
  - apply (bool_decide_unpack _). by vm_compute.
  - simpl. lia.
  - discriminate.
  - repeat constructor.
Defined.

(** ** Links that are not cleared, and links that are read late *)

(** X10.  When [add_inorder] links a node behind a one-node list (lines 106
    and 113) it does not write the new node's own next-link: a node that
    still heads a chain, such as a head taken off by [remove_front], brings
    that whole chain with it. *)
Theorem add_inorder_keeps_stale_link m l ls nl ns stale fuel :
  is_list m (Some l) [(l, ls)] ->
  is_list m (Some nl) ((nl, ns) :: stale) ->
  l ∉ ((nl, ns) :: stale).*1 ->
  Song.comparator ls > Song.comparator ns ∨
    (Song.comparator ls = Song.comparator ns ∧
     strcmp (Song.artist ls) (Song.artist ns) < 0) ->
  ∃ m',
    add_inorder fuel (Some l) (Some nl) m = Ok (Some l, m') ∧
    is_list m' (Some l) ((l, ls) :: (nl, ns) :: stale).
Proof.
  intros Hl Hnew Hapart Hcmp.
  pose proof Hl as (_ & Hls & n & Hn & Hnx%is_list_nil)%is_list_cons.
  pose proof Hnew as (_ & Hns & _)%is_list_cons. simpl in Hls, Hn, Hns.
  unfold NULL in Hnx.
  exists (set_next l (Some nl) m). split.
  - unfold add_inorder. mstep. rewrite Hnx. cbv beta iota. repeat mstep.
    destruct Hcmp as [Hgt|[Heq Hart]].
    + replace (Song.comparator ls >? Song.comparator ns) with true
        by (symmetry; rewrite Z.gtb_ltb; apply Z.ltb_lt; lia).
      by repeat mstep.
    + replace (Song.comparator ls >? Song.comparator ns) with false
        by (symmetry; rewrite Z.gtb_ltb; apply Z.ltb_ge; lia).
      repeat mstep.
      replace (Song.comparator ls <? Song.comparator ns) with false
        by (symmetry; apply Z.ltb_ge; lia).
      repeat mstep.
      replace (strcmp (Song.artist ls) (Song.artist ns) <? 0) with true
        by (symmetry; apply Z.ltb_lt; lia).
      by repeat mstep.
  - apply is_list_cons. simpl. split_and!; [done|by rewrite song_of_set_next|].
    eexists. split; [by erewrite nodes_set_next_eq|]. simpl.
    eapply is_list_frame; [|apply songs_set_next|done].
    intros l' Hin. apply nodes_set_next_ne. congruence.
Qed.

Lemma add_inorder_keeps_stale_link_witness :
  ∃ m',
    add_inorder 0 (Some 3%positive) (Some 1%positive) (mem_of_chain rising_songs 2)
      = Ok (Some 3%positive, m') ∧
    is_list m' (Some 3%positive)
      [(3%positive, Song.mk "r" "C" 9);
       (1%positive, Song.mk "p" "A" 1); (2%positive, Song.mk "q" "B" 2)].
Proof.
  apply (add_inorder_keeps_stale_link (mem_of_chain rising_songs 2)
           3%positive (Song.mk "r" "C" 9) 1%positive (Song.mk "p" "A" 1)
           [(2%positive, Song.mk "q" "B" 2)] 0).
  - by apply (traverse_is_list 1).
  - by apply (traverse_is_list 2).
  - apply (bool_decide_unpack _). by vm_compute.
  - left. by vm_compute.
Defined.

(** X11.  [add_front] of the old head onto what [remove_front] returned
    gives back the list and the very same memory: the head's next-link
    still held the value that is written. *)
Theorem add_front_remove_front_restores m lst l ls :
  chain m lst (l :: ls) ->
  (let* p := remove_front lst in add_front p lst) m = Ok (lst, m).
Proof.
  intros (-> & n & Hn & _). unfold remove_front, add_front. repeat mstep.
  unfold ret, set_next. rewrite Hn. do 2 f_equal.
  destruct m as [sg nd], n as [s nx]. cbn [songs nodes Node.song Node.next] in *.
  f_equal. by apply insert_id.
Qed.

Lemma add_front_remove_front_restores_witness :
  (let* p := remove_front (Some 1%positive) in add_front p (Some 1%positive))
    (mem_of_chain tie_songs 2)
  = Ok (Some 1%positive, mem_of_chain tie_songs 2).
Proof.
  apply (add_front_remove_front_restores (mem_of_chain tie_songs 2)
           (Some 1%positive) 1%positive [2%positive]).
  simpl. split; [reflexivity|]. eexists. split; [reflexivity|].
  simpl. split; [reflexivity|]. eexists. split; reflexivity.
Defined.

(** X13.  [apply] reads [list->next] after the visitor has run, not
    before: with a visitor that cuts the link of the node it is given, only
    the head of the list is visited, however long the list was. *)
Theorem apply_reads_link_after_visit {A} (arg : A) m l ls fuel :
  chain m (Some l) (l :: ls) -> (2 <= fuel)%nat ->
  apply fuel (Some l) cut_and_record arg (m, [])
  = Ok (tt, (set_next l NULL m, [(Some l, arg)])).
Proof.
  intros (_ & n & Hn & _) Hfuel.
  destruct fuel as [|[|fuel]]; [lia|lia|].
  assert (cut_and_record (Some l) arg (m, [])
          = Ok (tt, (set_next l NULL m, [(Some l, arg)]))) as Hcall.
  { unfold cut_and_record, bind, lift. cbn [fst snd].
    by rewrite (store_next_ok _ _ _ _ Hn). }
  assert (lift (W:=list (ptr * A)) (get_next (Some l))
            (set_next l NULL m, [(Some l, arg)])
          = Ok (NULL, (set_next l NULL m, [(Some l, arg)]))) as Hnext.
  { unfold lift. cbn [fst snd].
    by erewrite get_next_ok by (by erewrite nodes_set_next_eq). }
  unfold apply. cbn [while]. rewrite !bind_assoc, bind_ret.
  rewrite bool_decide_true by done. rewrite !bind_assoc.
  rewrite (bind_Ok _ _ _ _ _ Hcall), (bind_Ok _ _ _ _ _ Hnext).
  rewrite !bind_assoc, bind_ret. by rewrite bool_decide_false by (by intros []).
Qed.

Lemma apply_reads_link_after_visit_witness :
  apply 2 (Some 1%positive) cut_and_record 7%Z (mem_of_chain tie_songs 2, [])
  = Ok (tt, (set_next 1%positive NULL (mem_of_chain tie_songs 2),
             [(Some 1%positive, 7%Z)])).
Proof.
  apply (apply_reads_link_after_visit 7%Z (mem_of_chain tie_songs 2)
           1%positive [2%positive] 2).
  - simpl. split; [reflexivity|]. eexists. split; [reflexivity|].
    simpl. split; [reflexivity|]. eexists. split; reflexivity.
  - lia.
Defined.

Lemma ins_head_kept {A} (sg : A -> Song.t) x h t r :
  t ≠ [] ->
  ¬ (cmp sg x > cmp sg h ∨
     (cmp sg x = cmp sg h ∧ strcmp (title sg x) (title sg h) > 0)) ->
  ins sg x (h :: t) = Some r ->
  ∃ t', r = h :: t' ∧ inserted x t t'.
Proof.
  intros Ht Hnot. destruct t as [|h' t]; [done|]. unfold ins. cbv beta iota.
  destruct (Z.gtb_spec (cmp sg x) (cmp sg h)); [lia|].
  destruct (Z.eqb_spec (cmp sg x) (cmp sg h)).
  - destruct (Z.gtb_spec (strcmp (title sg x) (title sg h)) 0); [lia|].
    destruct (ins_ties_head sg x (h' :: t)) as [r'|] eqn:E; simpl; [|done].
    intros [= <-]. apply ins_ties_head_Some in E as ->.
    eexists. split; [done|]. apply ins_ties_inserted.
  - intros [= <-]. eexists. split; [done|].
    apply (ins_greater_inserted sg x (h' :: t)).
Qed.

(** X15.  On a list of two nodes or more, a fresh node that does not sort
    before the head (its comparator is not above the head's and, when
    equal, its title is not above the head's) leaves the head in place: the
    call faults or returns the old head, with the new node put in somewhere
    behind it. *)
Theorem add_inorder_keeps_head m lst h t nl nn ns fuel :
  is_list m lst (h :: t) ->
  nodes m !! nl = Some nn -> Node.next nn = NULL -> song_of m nl = Some ns ->
  nl ∉ (h :: t).*1 ->
  (length (h :: t) <= fuel)%nat ->
  t ≠ [] ->
  ¬ (Song.comparator ns > Song.comparator h.2 ∨
     (Song.comparator ns = Song.comparator h.2 ∧
      strcmp (Song.song ns) (Song.song h.2) > 0)) ->
  add_inorder fuel lst (Some nl) m = Fault ∨
  ∃ t' m',
    add_inorder fuel lst (Some nl) m = Ok (lst, m') ∧
    is_list m' lst (h :: t') ∧ inserted (nl, ns) t t'.
Proof.
  intros Hl Hn Hnx Hs Hnl Hfuel Ht Hnot.
  destruct (add_inorder_cases m lst (h :: t) nl nn ns fuel Hl Hn Hnx Hs Hnl Hfuel)
    as [[_ Hf]|(xs' & m' & Hins & Hrun & Hl' & _)]; [by left|right].
  destruct (ins_head_kept snd (nl, ns) h t xs' Ht Hnot Hins) as (t' & -> & Hi).
  assert (head_ptr (h :: t') = lst) as Hhd by by rewrite (is_list_head _ _ _ Hl).
  rewrite Hhd in Hrun, Hl'. by exists t', m'.
Qed.

Lemma add_inorder_keeps_head_witness :
  add_inorder 2 (Some 1%positive) (Some 3%positive) (mem_of_chain desc_tie_songs 2)
    = Fault ∨
  ∃ t' m',
    add_inorder 2 (Some 1%positive) (Some 3%positive) (mem_of_chain desc_tie_songs 2)
      = Ok (Some 1%positive, m') ∧
    is_list m' (Some 1%positive) ((1%positive, Song.mk "p" "C" 3) :: t') ∧
    inserted (3%positive, Song.mk "r" "B" 3) [(2%positive, Song.mk "q" "A" 3)] t'.
Proof.
  apply (add_inorder_keeps_head (mem_of_chain desc_tie_songs 2) (Some 1%positive)
           (1%positive, Song.mk "p" "C" 3) [(2%positive, Song.mk "q" "A" 3)]
           3%positive (Node.mk (Some 3%positive) NULL) (Song.mk "r" "B" 3) 2).
  - by apply (traverse_is_list 2).
  - reflexivity.
  - reflexivity.
  - reflexivity.
  - apply (bool_decide_unpack _). by vm_compute.
  - simpl. lia.
  - discriminate.
  - intros [H|[_ H]]; by vm_compute in H.
Defined.

(** X14.  [add_front] does not look whether the node is already the head:
    putting the head of a list in front of that list makes the node its
    own successor, after which no finite chain starts at it and [apply]
    runs on whatever the fuel. *)
Theorem add_front_of_head_makes_cycle {A} (arg : A) m l ls :
  chain m (Some l) (l :: ls) ->
  ∃ m',
    add_front (Some l) (Some l) m = Ok (Some l, m') ∧
    (∃ n, nodes m' !! l = Some n ∧ Node.next n = Some l) ∧
    (∀ xs, ¬ chain m' (Some l) xs) ∧
    ∀ fuel (w : list (ptr * A)), apply fuel (Some l) record arg (m', w) = Timeout.
Proof.
  intros (_ & n & Hn & _). exists (set_next l (Some l) m).
  assert (nodes (set_next l (Some l) m) !! l
          = Some (Node.mk (Node.song n) (Some l))) as Hn'
    by by erewrite nodes_set_next_eq.
  split_and!.
  - unfold add_front. by repeat mstep.
  - by eexists.
  - intros xs Hc. pose proof (chain_NoDup _ _ _ Hc) as Hnd.
    destruct xs as [|l1 xs]; [done|]. destruct Hc as ([= <-] & n1 & Hn1 & Hc).
    rewrite Hn' in Hn1. injection Hn1 as <-. simpl in Hc.
    destruct xs as [|l2 xs]; [done|]. destruct Hc as ([= <-] & _).
    apply NoDup_cons in Hnd as [Hnd _]. apply Hnd. by left.
  - induction fuel as [|fuel IH]; intros w; [done|].
    specialize (IH (w ++ [(Some l, arg)])). unfold apply in IH |- *.
    cbn [while]. rewrite !bind_assoc, bind_ret.
    rewrite bool_decide_true by done. rewrite !bind_assoc.
    assert (lift (W:=list (ptr * A)) (get_next (Some l))
              (set_next l (Some l) m, w ++ [(Some l, arg)])
            = Ok (Some l, (set_next l (Some l) m, w ++ [(Some l, arg)])))
      as Hnext.
    { unfold lift. cbn [fst snd]. by rewrite (get_next_ok _ _ _ Hn'). }
    unfold bind at 1. unfold record at 1. cbn [fst snd].
    by rewrite (bind_Ok _ _ _ _ _ Hnext).
Qed.

Lemma add_front_of_head_makes_cycle_witness :
  ∃ m',
    add_front (Some 1%positive) (Some 1%positive) (mem_of_chain tie_songs 2)
      = Ok (Some 1%positive, m') ∧
    (∃ n, nodes m' !! 1%positive = Some n ∧ Node.next n = Some 1%positive) ∧
    (∀ xs, ¬ chain m' (Some 1%positive) xs) ∧
    ∀ fuel (w : list (ptr * Z)),
      apply fuel (Some 1%positive) record 7%Z (m', w) = Timeout.
Proof.
  apply (add_front_of_head_makes_cycle 7%Z (mem_of_chain tie_songs 2)
           1%positive [2%positive]).
  simpl. split; [reflexivity|]. eexists. split; [reflexivity|].
  simpl. split; [reflexivity|]. eexists. split; reflexivity.
Defined.
